(** * lncd: the session pool of the Lightning Node Connect daemon

    A shallow embedding of [lncd/lncd.go]: the key material parser
    ([parseKeys]), session construction ([NewConnection]), the per-session
    dispatch loop ([runLoop]), the pool's admission algorithm ([execute]) and
    the idle timer armed by [execute].

    Goroutines are interleaved at the granularity the pool mutex gives them:
    one admission attempt, one timer firing and one receive of the dispatch
    loop are the atomic steps.  Everything the daemon delegates to other
    packages (btcec, the mailbox transport, encoding/json, lnrpc, the
    permission manager) is collected in a record of collaborators; what
    depends on the network or on the random source is an oracle supplied per
    call. *)

From Stdlib Require Import ZArith Ascii String.
From Stdlib.Strings Require Import Byte.
From stdpp Require Import base decidable countable gmap strings list fin_maps.

Local Open Scope string_scope.
Local Open Scope list_scope.

(** ** Errors *)

(** The [error] values the code can hand to [onError].  The two [hex]
    errors are those of [encoding/hex]; [ErrTooManyConnections] is the
    [fmt.Errorf] of [execute]; an error produced by a collaborator is carried
    with its message. *)
Inductive error : Type :=
| ErrLength
| InvalidByteError (b : ascii)
| ErrTooManyConnections
| ErrCollaborator (msg : string).

(** ** encoding/hex *)

Definition fromHexChar (c : ascii) : option N :=
  let n := N_of_ascii c in
  if ((48 <=? n) && (n <=? 57))%N then Some (n - 48)%N
  else if ((97 <=? n) && (n <=? 102))%N then Some (n - 97 + 10)%N
  else if ((65 <=? n) && (n <=? 70))%N then Some (n - 65 + 10)%N
  else None.

(** [hex.DecodeString]: pairs of digits from left to right, the first
    offending byte reported; an odd length is reported last. *)
Fixpoint hex_DecodeString (src : string) : error + list byte :=
  match src with
  | EmptyString => inr []
  | String p EmptyString =>
      match fromHexChar p with
      | None => inl (InvalidByteError p)
      | Some _ => inl ErrLength
      end
  | String p (String q rest) =>
      match fromHexChar p with
      | None => inl (InvalidByteError p)
      | Some a =>
          match fromHexChar q with
          | None => inl (InvalidByteError q)
          | Some b =>
              match hex_DecodeString rest with
              | inl err => inl err
              | inr bs => inr (byte_of_ascii (ascii_of_N (a * 16 + b)) :: bs)
              end
          end
      end
  end.

Definition hextable (n : N) : ascii :=
  if (n <? 10)%N then ascii_of_N (48 + n) else ascii_of_N (97 + (n - 10)).

Fixpoint hex_EncodeToString (src : list byte) : string :=
  match src with
  | [] => EmptyString
  | v :: rest =>
      let n := N_of_ascii (ascii_of_byte v) in
      String (hextable (n / 16)) (String (hextable (n mod 16)) (hex_EncodeToString rest))
  end.

(** ** Data model *)

Definition Macaroon : Type := list byte.

Record ConnectionInfo : Type := mkConnectionInfo {
  Mailbox : string;
  PairingPhrase : string;
  LocalKey : string;
  RemoteKey : string;
  Status : string;
  macaroon : option Macaroon
}.

Record ConnectionKey : Type := mkConnectionKey {
  mailbox : string;
  pairingPhrase : string
}.

#[global] Instance ConnectionKey_eq_dec : EqDecision ConnectionKey.
Proof. solve_decision. Defined.

#[global] Instance ConnectionKey_countable : Countable ConnectionKey.
Proof.
  refine (inj_countable' (fun k => (mailbox k, pairingPhrase k))
                         (fun p => mkConnectionKey p.1 p.2) _).
  by intros [m p].
Defined.

(** The two closures of an [Action] are represented by the action's [tag]:
    an invocation of [onError] or [onResponse] is an event that names the
    action it belongs to.  A callback is taken to return to its caller. *)
Record Action : Type := mkAction {
  tag : nat;
  method : string;
  payload : string
}.

(** A registered invoker receives the payload and calls [done] back; the
    list is the sequence of [done (resultJSON, err)] calls it makes. *)
Abbreviation Invoker := (string -> list (error + string)) (only parsing).

(** Modelled from the spec: the permission manager's type is declared
    outside [lncd.go]; section 3 of the spec gives it as the capability set,
    a set of [(entity, action)] pairs derived once from the macaroon. *)
Record PermissionManager : Type := mkPermissionManager {
  capabilities : gset (string * string)
}.

(** Pointers to [Connection] objects. *)
Abbreviation ptr := nat (only parsing).

(** The idle timer: the instant at which it fires, and the session key its
    closure captured from [execute]'s descriptor. *)
Record Timer : Type := mkTimer {
  deadline : Z;
  timerKey : ConnectionKey
}.

Record Connection : Type := mkConnection {
  connInfo : ConnectionInfo;
  actions : list Action;          (* buffered channel, capacity 1 *)
  actionsClosed : bool;           (* close(conn.actions) has run *)
  grpcClient : nat;
  registry : gmap string Invoker;
  timeoutTimer : option Timer;
  perms : PermissionManager
}.

(** [ConnectionPool] together with the objects its map points to. *)
Record ConnectionPool : Type := mkConnectionPool {
  connections : gmap ConnectionKey ptr;
  mutex : bool;                   (* true while pool.mutex is locked *)
  heap : gmap ptr Connection;
  nextPtr : ptr;
  parked : option (ptr * Action)  (* a send waiting for room in the channel *)
}.

Definition NewConnectionPool : ConnectionPool :=
  {| connections := ∅; mutex := false; heap := ∅; nextPtr := 0; parked := None |}.

(** ** Collaborators *)

Record World : Type := mkWorld {
  PrivateKey : Type;
  PublicKey : Type;
  PrivKeyFromBytes : list byte -> PrivateKey;
  ParsePubKey : list byte -> error + PublicKey;
  Serialize : PrivateKey -> list byte;
  SerializeCompressed : PublicKey -> list byte;
  json_Unmarshal_strings : string -> error + list string;
  RegisterLightningJSONCallbacks : gmap string Invoker -> gmap string Invoker;
  NewPermissionManager : ConnectionInfo -> error + PermissionManager;
  perms_check : PermissionManager -> string -> error + bool;
  LNCD_TIMEOUT : Z;
  LNCD_LIMIT_ACTIVE_CONNECTIONS : Z
}.

(** What the transport delivered during a successful dial: the peer's static
    key if [onRemoteKey] ran, the macaroon stored by [onAuthData], the stream
    handle returned by [lndConnect] and the status reported by the probe. *)
Record DialResult (W : World) : Type := mkDialResult {
  peerKey : option (PublicKey W);
  authMacaroon : option Macaroon;
  lndConn : nat;
  statusString : string
}.
Arguments peerKey {W} _.
Arguments authMacaroon {W} _.
Arguments lndConn {W} _.
Arguments statusString {W} _.

(** The outcomes of one call's interaction with the outside: the random
    source behind [btcec.NewPrivateKey], and the mailbox transport, whose
    outcome stands for [mailbox.NewClientWebsocketConn] followed by
    [lndConnect] and the status probe (an error of either is the [inl]). *)
Record Oracle (W : World) : Type := mkOracle {
  NewPrivateKey : error + PrivateKey W;
  NewClientWebsocketConn :
    string -> string -> PrivateKey W -> option (PublicKey W) -> error + DialResult W
}.
Arguments NewPrivateKey {W} _.
Arguments NewClientWebsocketConn {W} _ _ _ _ _.

Section Daemon.

Variable W : World.

(** ** Key material parser *)

Definition parseKeys (io : Oracle W) (localPrivKey remotePubKey : string)
  : error + (PrivateKey W * option (PublicKey W)) :=
  if decide (localPrivKey = EmptyString /\ remotePubKey = EmptyString) then
    match NewPrivateKey io with
    | inl err => inl err
    | inr privKey => inr (privKey, None)
    end
  else if decide (remotePubKey = EmptyString) then
    match hex_DecodeString localPrivKey with
    | inl err => inl err
    | inr privKeyByte => inr (PrivKeyFromBytes W privKeyByte, None)
    end
  else
    match hex_DecodeString localPrivKey with
    | inl err => inl err
    | inr localPrivKeyBytes =>
        let privKey := PrivKeyFromBytes W localPrivKeyBytes in
        match hex_DecodeString remotePubKey with
        | inl err => inl err
        | inr remoteKeyBytes =>
            match ParsePubKey W remoteKeyBytes with
            | inl err => inl err
            | inr remoteStaticKey => inr (privKey, Some remoteStaticKey)
            end
        end
    end.


(** ** Session construction *)

Definition withLocalKey (info : ConnectionInfo) (k : string) : ConnectionInfo :=
  mkConnectionInfo (Mailbox info) (PairingPhrase info) k (RemoteKey info)
                   (Status info) (macaroon info).

Definition withRemoteKey (info : ConnectionInfo) (k : string) : ConnectionInfo :=
  mkConnectionInfo (Mailbox info) (PairingPhrase info) (LocalKey info) k
                   (Status info) (macaroon info).

Definition withMacaroon (info : ConnectionInfo) (mac : Macaroon) : ConnectionInfo :=
  mkConnectionInfo (Mailbox info) (PairingPhrase info) (LocalKey info)
                   (RemoteKey info) (Status info) (Some mac).

Definition withStatus (info : ConnectionInfo) (status : string) : ConnectionInfo :=
  mkConnectionInfo (Mailbox info) (PairingPhrase info) (LocalKey info)
                   (RemoteKey info) status (macaroon info).

(** The two callbacks handed to the transport write the peer's key and the
    macaroon into [info]; the dial result says which of them ran. *)
Definition NewConnection (io : Oracle W) (info : ConnectionInfo) : error + Connection :=
  match parseKeys io (LocalKey info) (RemoteKey info) with
  | inl err => inl err
  | inr (localPriv, remotePub) =>
      let info := withLocalKey info (hex_EncodeToString (Serialize W localPriv)) in
      match NewClientWebsocketConn io (Mailbox info) (PairingPhrase info)
                                   localPriv remotePub with
      | inl err => inl err
      | inr d =>
          let info :=
            match peerKey d with
            | Some key => withRemoteKey info (hex_EncodeToString (SerializeCompressed W key))
            | None => info
            end in
          let info :=
            match authMacaroon d with
            | Some mac => withMacaroon info mac
            | None => info
            end in
          let info := withStatus info (statusString d) in
          match NewPermissionManager W info with
          | inl err => inl err
          | inr pm =>
              inr {| connInfo := info;
                     actions := [];
                     actionsClosed := false;
                     grpcClient := lndConn d;
                     registry := RegisterLightningJSONCallbacks W ∅;
                     timeoutTimer := None;
                     perms := pm |}
          end
      end
  end.

(** ** Observable events *)

Inductive event : Type :=
| EvLock
| EvUnlock
| EvOnError (req : Action) (err : error)
| EvOnResponse (req : Action) (info : ConnectionInfo) (result : string)
| EvInvoke (name : string) (arg : string)
| EvNewConnection (info : ConnectionInfo)
| EvGoRunLoop (p : ptr)
| EvSend (p : ptr) (req : Action)
| EvCloseActions (p : ptr)
| EvCloseGrpc (h : nat)
| EvSleep
| EvPanic.

(** ** Dispatch loop *)

Definition bool_json (b : bool) : string := if b then "true" else "false".

Fixpoint join_commas (l : list string) : string :=
  match l with
  | [] => EmptyString
  | [x] => x
  | x :: rest => x +:+ "," +:+ join_commas rest
  end.

Definition jsonArray (v : list bool) : string :=
  "[" +:+ join_commas (map bool_json v) +:+ "]".

(** [json.Marshal] of a non-nil [[]bool]; it has no failing case. *)
Definition json_Marshal_bools (v : list bool) : error + string :=
  inr (jsonArray v).

(** The body of [for i, perm := range perms]: [valid[i]] is written at each
    index in turn; a failed check is logged and recorded as [false]. *)
Fixpoint checkEach (pm : PermissionManager) (i : nat) (rest : list string)
         (valid : list bool) : list bool :=
  match rest with
  | [] => valid
  | perm :: rest' =>
      match perms_check W pm perm with
      | inl _ => checkEach pm (S i) rest' (<[i := false]> valid)
      | inr allowed => checkEach pm (S i) rest' (<[i := allowed]> valid)
      end
  end.

Definition doneCallback (conn : Connection) (req : Action) (r : error + string) : event :=
  match r with
  | inl err => EvOnError req err
  | inr resultJSON => EvOnResponse req (connInfo conn) resultJSON
  end.

(** One iteration of [runLoop]'s [for req := range conn.actions]. *)
Definition dispatch (conn : Connection) (req : Action) : list event :=
  if decide (method req = "checkPerms") then
    match json_Unmarshal_strings W (payload req) with
    | inl err => [EvOnError req err]
    | inr permList =>
        let valid := checkEach (perms conn) 0 permList
                               (replicate (length permList) false) in
        match json_Marshal_bools valid with
        | inl err => [EvOnError req err]
        | inr result => [EvOnResponse req (connInfo conn) result]
        end
    end
  else
    match registry conn !! method req with
    | Some methodFunc =>
        EvInvoke (method req) (payload req)
          :: map (doneCallback conn req) (methodFunc (payload req))
    | None => []
    end.

Definition runLoop (conn : Connection) (received : list Action) : list event :=
  concat (map (dispatch conn) received).

(** ** Connection objects in the heap *)

Definition withActions (conn : Connection) (q : list Action) : Connection :=
  {| connInfo := connInfo conn; actions := q; actionsClosed := actionsClosed conn;
     grpcClient := grpcClient conn; registry := registry conn;
     timeoutTimer := timeoutTimer conn; perms := perms conn |}.

Definition withTimer (conn : Connection) (t : option Timer) : Connection :=
  {| connInfo := connInfo conn; actions := actions conn;
     actionsClosed := actionsClosed conn; grpcClient := grpcClient conn;
     registry := registry conn; timeoutTimer := t; perms := perms conn |}.

(** [Close]: [close(conn.actions)] and [conn.grpcClient.Close()]. *)
Definition Close (conn : Connection) : Connection :=
  {| connInfo := connInfo conn; actions := actions conn; actionsClosed := true;
     grpcClient := grpcClient conn; registry := registry conn;
     timeoutTimer := timeoutTimer conn; perms := perms conn |}.

Definition withHeap (pool : ConnectionPool) (h : gmap ptr Connection) : ConnectionPool :=
  {| connections := connections pool; mutex := mutex pool; heap := h;
     nextPtr := nextPtr pool; parked := parked pool |}.

Definition withMutex (pool : ConnectionPool) (b : bool) : ConnectionPool :=
  {| connections := connections pool; mutex := b; heap := heap pool;
     nextPtr := nextPtr pool; parked := parked pool |}.

Definition withParked (pool : ConnectionPool) (w : option (ptr * Action)) : ConnectionPool :=
  {| connections := connections pool; mutex := mutex pool; heap := heap pool;
     nextPtr := nextPtr pool; parked := w |}.

(** ** The pool: admission and reuse *)

(** How one pass through the body of [execute]'s loop ends. *)
Inductive outcome : Type :=
| Returned (retry : bool)   (* [try] returned and the mutex was unlocked *)
| Panicked                  (* a run-time panic unwound [execute] *)
| ParkedOnSend              (* waiting in [connection.actions <- req] *)
| ParkedOnLock.             (* waiting in [pool.mutex.Lock()] *)

(** [connection.actions <- req] on the connection [p] points to.  A nil
    connection and a closed channel panic; a full buffer parks the sender. *)
Definition send (pool : ConnectionPool) (p : option ptr) (req : Action)
  : ConnectionPool * list event * outcome :=
  match p ≫= (fun q => (fun c => (q, c)) <$> heap pool !! q) with
  | None => (pool, [EvPanic], Panicked)
  | Some (q, connection) =>
      if actionsClosed connection then (pool, [EvPanic], Panicked)
      else if decide (length (actions connection) < 1) then
        (withHeap pool (<[q := withActions connection (actions connection ++ [req])]> (heap pool)),
         [EvSend q req], Returned false)
      else (withParked pool (Some (q, req)), [], ParkedOnSend)
  end.

(** The closure [try] of [execute], run with the mutex held.  The connection
    variable is nil after a failed [NewConnection]. *)
Definition try (io : Oracle W) (now : Z) (pool : ConnectionPool)
           (info : ConnectionInfo) (req : Action)
  : ConnectionPool * list event * outcome :=
  let key := mkConnectionKey (Mailbox info) (PairingPhrase info) in
  match connections pool !! key with
  | None =>
      if (LNCD_LIMIT_ACTIVE_CONNECTIONS W <=? Z.of_nat (size (connections pool)))%Z then
        (pool, [EvOnError req ErrTooManyConnections], Returned true)
      else
        match NewConnection io info with
        | inl err =>
            let '(pool', evs, r) := send pool None req in
            (pool', EvNewConnection info :: EvOnError req err :: evs, r)
        | inr connection =>
            let p := nextPtr pool in
            let connection :=
              withTimer connection (Some (mkTimer (now + LNCD_TIMEOUT W) key)) in
            let pool :=
              {| connections := <[key := p]> (connections pool);
                 mutex := mutex pool;
                 heap := <[p := connection]> (heap pool);
                 nextPtr := S p;
                 parked := parked pool |} in
            let '(pool', evs, r) := send pool (Some p) req in
            (pool', EvNewConnection info :: EvGoRunLoop p :: evs, r)
        end
  | Some p => send pool (Some p) req
  end.

(** One pass through the body of [for retry]: lock, [try], unlock. *)
Definition attempt (io : Oracle W) (now : Z) (pool : ConnectionPool)
           (info : ConnectionInfo) (req : Action)
  : ConnectionPool * list event * outcome :=
  if mutex pool then (pool, [], ParkedOnLock)
  else
    let '(pool', evs, r) := try io now (withMutex pool true) info req in
    match r with
    | Returned retry => (withMutex pool' false, EvLock :: evs ++ [EvUnlock], Returned retry)
    | _ => (pool', EvLock :: evs, r)
    end.

Definition second : Z := 1000000000.

(** How a call of [execute] stands after at most [fuel] passes. *)
Inductive progress : Type :=
| Finished (r : outcome)
| Retrying.

(** [execute] as run while no other goroutine touches the pool: a pass that
    asks for a retry is followed by the one-second sleep and the next pass. *)
Fixpoint execute (fuel : nat) (io : Oracle W) (now : Z) (pool : ConnectionPool)
         (info : ConnectionInfo) (req : Action)
  : ConnectionPool * list event * progress :=
  match fuel with
  | 0 => (pool, [], Retrying)
  | S fuel' =>
      let '(pool1, evs, r) := attempt io now pool info req in
      match r with
      | Returned true =>
          let '(pool2, evs2, r2) := execute fuel' io (now + second) pool1 info req in
          (pool2, evs ++ EvSleep :: evs2, r2)
      | _ => (pool1, evs, Finished r)
      end
  end.

(** ** The idle timer *)

(** The function given to [time.AfterFunc], for the connection at [p]; it
    runs once the deadline has passed and the mutex is free. *)
Definition timerFire (now : Z) (pool : ConnectionPool) (p : ptr)
  : ConnectionPool * list event :=
  match heap pool !! p with
  | None => (pool, [])
  | Some connection =>
      match timeoutTimer connection with
      | None => (pool, [])
      | Some tm =>
          if mutex pool then (pool, [])
          else if (now <? deadline tm)%Z then (pool, [])
          else if decide (length (actions connection) = 0) then
            ({| connections := delete (timerKey tm) (connections pool);
                mutex := mutex pool;
                heap := <[p := withTimer (Close connection) None]> (heap pool);
                nextPtr := nextPtr pool;
                parked := parked pool |},
             [EvLock; EvCloseActions p; EvCloseGrpc (grpcClient connection); EvUnlock])
          else
            (withHeap pool
               (<[p := withTimer connection
                         (Some (mkTimer (now + LNCD_TIMEOUT W) (timerKey tm)))]>
                  (heap pool)),
             [EvLock; EvUnlock])
      end
  end.

(** ** The dispatch loop as a goroutine *)

(** The loop at [p] receives the head of its channel and dispatches it; a
    sender parked on that channel then completes its send and [execute]
    unlocks the mutex and returns. *)
Definition receive (pool : ConnectionPool) (p : ptr) : ConnectionPool * list event :=
  match heap pool !! p with
  | None => (pool, [])
  | Some connection =>
      match actions connection with
      | [] => (pool, [])
      | req :: rest =>
          match parked pool with
          | Some (q, waiting) =>
              if decide (q = p) then
                ({| connections := connections pool;
                    mutex := false;
                    heap := <[p := withActions connection (rest ++ [waiting])]> (heap pool);
                    nextPtr := nextPtr pool;
                    parked := None |},
                 dispatch connection req ++ [EvSend p waiting; EvUnlock])
              else
                (withHeap pool (<[p := withActions connection rest]> (heap pool)),
                 dispatch connection req)
          | None =>
              (withHeap pool (<[p := withActions connection rest]> (heap pool)),
               dispatch connection req)
          end
      end
  end.

(** ** Interleavings *)

Inductive label : Type :=
| Attempt (io : Oracle W) (now : Z) (info : ConnectionInfo) (req : Action)
| TimerFire (now : Z) (p : ptr)
| Receive (p : ptr).

Definition step (pool : ConnectionPool) (l : label) : ConnectionPool * list event :=
  match l with
  | Attempt io now info req => (attempt io now pool info req).1
  | TimerFire now p => timerFire now pool p
  | Receive p => receive pool p
  end.

Fixpoint run (pool : ConnectionPool) (ls : list label) : ConnectionPool * list event :=
  match ls with
  | [] => (pool, [])
  | l :: ls' =>
      let '(pool1, evs1) := step pool l in
      let '(pool2, evs2) := run pool1 ls' in
      (pool2, evs1 ++ evs2)
  end.

End Daemon.

Arguments Attempt {W} _ _ _ _.
Arguments TimerFire {W} _ _.
Arguments Receive {W} _.

(** ** The permission manager *)

Fixpoint cutAtColon (s : string) : option (string * string) :=
  match s with
  | EmptyString => None
  | String c rest =>
      if Ascii.eqb c ":" then Some (EmptyString, rest)
      else match cutAtColon rest with
           | Some (before, after) => Some (String c before, after)
           | None => None
           end
  end.

(** Modelled from the spec: [entity:action] syntax of a permission string
    (section 4.D); the parser lives outside [lncd.go].  A permission is an
    entity and an action separated by one colon. *)
Definition parsePermission (requested : string) : option (string * string) :=
  match cutAtColon requested with
  | None => None
  | Some (entity, action) =>
      match cutAtColon action with
      | None => Some (entity, action)
      | Some _ => None
      end
  end.

(** Modelled from the spec: [perms.check] is defined outside [lncd.go];
    section 4.D gives it as: true iff the exact pair, or [(entity, "*")], or
    [("*", action)], or [("*", "*")] is in the capability set; unknown syntax
    fails with [BadPermissionFormat]. *)
Definition PermissionManager_check (pm : PermissionManager) (requested : string)
  : error + bool :=
  match parsePermission requested with
  | None => inl (ErrCollaborator "BadPermissionFormat")
  | Some (entity, action) =>
      inr (bool_decide ((entity, action) ∈ capabilities pm)
           || bool_decide ((entity, "*") ∈ capabilities pm)
           || bool_decide (("*", action) ∈ capabilities pm)
           || bool_decide (("*", "*") ∈ capabilities pm))
  end.

(** A requested permission is allowed by a capability set. *)
Definition permitted (pm : PermissionManager) (requested : string) : Prop :=
  exists entity action,
    parsePermission requested = Some (entity, action) /\
    ((entity, action) ∈ capabilities pm \/ (entity, "*") ∈ capabilities pm \/
     ("*", action) ∈ capabilities pm \/ ("*", "*") ∈ capabilities pm).

(** The collaborators of [W] with the permission check of section 4.D. *)
Definition withSpecCheck (W : World) : World :=
  {| PrivateKey := PrivateKey W;
     PublicKey := PublicKey W;
     PrivKeyFromBytes := PrivKeyFromBytes W;
     ParsePubKey := ParsePubKey W;
     Serialize := Serialize W;
     SerializeCompressed := SerializeCompressed W;
     json_Unmarshal_strings := json_Unmarshal_strings W;
     RegisterLightningJSONCallbacks := RegisterLightningJSONCallbacks W;
     NewPermissionManager := NewPermissionManager W;
     perms_check := PermissionManager_check;
     LNCD_TIMEOUT := LNCD_TIMEOUT W;
     LNCD_LIMIT_ACTIVE_CONNECTIONS := LNCD_LIMIT_ACTIVE_CONNECTIONS W |}.

(** ** Reading traces *)

Definition isError {A : Type} (r : error + A) : Prop :=
  match r with inl _ => True | inr _ => False end.

(** What the loop of the [checkPerms] branch stores for one permission. *)
Definition verdict (W : World) (pm : PermissionManager) (perm : string) : bool :=
  match perms_check W pm perm with
  | inl _ => false
  | inr allowed => allowed
  end.

(** The reading of the dispatch loop under which every failure of a
    [checkPerms] action, of the payload parse or of a permission check, ends
    the action with a single [onError]. *)
Definition checkPermsFailureShortCircuits (W : World) (conn : Connection)
           (req : Action) : Prop :=
  method req = "checkPerms" ->
  (isError (json_Unmarshal_strings W (payload req)) \/
   exists permList perm,
     json_Unmarshal_strings W (payload req) = inr permList /\
     perm ∈ permList /\ isError (perms_check W (perms conn) perm)) ->
  exists err, dispatch W conn req = [EvOnError req err].


Definition isCallbackOf (req : Action) (e : event) : bool :=
  match e with
  | EvOnError r _ => bool_decide (tag r = tag req)
  | EvOnResponse r _ _ => bool_decide (tag r = tag req)
  | _ => false
  end.

(** Number of [onError] / [onResponse] invocations of [req] in a trace. *)
Fixpoint callbackCount (req : Action) (tr : list event) : nat :=
  match tr with
  | [] => 0
  | e :: tr' => (if isCallbackOf req e then 1 else 0) + callbackCount req tr'
  end.

Definition isNewConnection (e : event) : bool :=
  match e with EvNewConnection _ => true | _ => false end.

Definition isSleep (e : event) : bool :=
  match e with EvSleep => true | _ => false end.

(** Whether the mutex is held after a trace, given whether it was before. *)
Fixpoint heldAfter (held : bool) (tr : list event) : bool :=
  match tr with
  | [] => held
  | EvLock :: tr' => heldAfter true tr'
  | EvUnlock :: tr' => heldAfter false tr'
  | _ :: tr' => heldAfter held tr'
  end.

(** Every event selected by [sel] occurs while the mutex is in state
    [expected]. *)
Fixpoint occursWithLock (sel : event -> bool) (expected held : bool)
         (tr : list event) : bool :=
  match tr with
  | [] => true
  | EvLock :: tr' => occursWithLock sel expected true tr'
  | EvUnlock :: tr' => occursWithLock sel expected false tr'
  | e :: tr' =>
      (if sel e then Bool.eqb held expected else true)
      && occursWithLock sel expected held tr'
  end.

Definition isLockEvent (e : event) : bool :=
  match e with EvLock | EvUnlock => true | _ => false end.

(** Events of the body of [try]: neither a lock operation nor the sleep. *)
Definition quiet (tr : list event) : bool :=
  forallb (fun e => negb (isLockEvent e) && negb (isSleep e)) tr.

(** The reading of [execute] under which session construction runs with the
    mutex released. *)
Definition constructionOutsideLock (tr : list event) : Prop :=
  occursWithLock isNewConnection false false tr = true.

(** The trace of [n] rejected passes. *)
Fixpoint rejections (req : Action) (n : nat) : list event :=
  match n with
  | 0 => []
  | S n' => EvLock :: EvOnError req ErrTooManyConnections :: EvUnlock :: EvSleep
              :: rejections req n'
  end.

(** ** Pool invariants *)

Definition descriptorKey (info : ConnectionInfo) : ConnectionKey :=
  mkConnectionKey (Mailbox info) (PairingPhrase info).

Definition sessionKey (conn : Connection) : ConnectionKey :=
  descriptorKey (connInfo conn).

(** A session is live until [Close] has run on it. *)
Definition live (conn : Connection) : Prop := actionsClosed conn = false.

Record poolInvariant (cap : Z) (pool : ConnectionPool) : Prop := mkPoolInvariant {
  inv_cap : (Z.of_nat (size (connections pool)) <= cap)%Z;
  inv_installed : forall k p, connections pool !! k = Some p ->
    exists conn, heap pool !! p = Some conn /\ live conn /\ sessionKey conn = k;
  inv_live : forall p conn, heap pool !! p = Some conn -> live conn ->
    connections pool !! sessionKey conn = Some p;
  inv_timer : forall p conn tm, heap pool !! p = Some conn ->
    timeoutTimer conn = Some tm -> live conn /\ timerKey tm = sessionKey conn;
  inv_alloc : forall p conn, heap pool !! p = Some conn -> p < nextPtr pool
}.

(** The idle timer of the connection at [p], if it is armed. *)
Definition timerOf (pool : ConnectionPool) (p : nat) : option Timer :=
  heap pool !! p ≫= timeoutTimer.

(** ** A concrete instance *)

Module Demo.

Definition dq : string := String (ascii_of_nat 34) EmptyString.

Definition payloadThree : string :=
  "[" +:+ dq +:+ "info:read" +:+ dq +:+ "," +:+ dq +:+ "offchain:send" +:+ dq
      +:+ "," +:+ dq +:+ "onchain:read" +:+ dq +:+ "]".

Definition payloadMalformed : string := "[" +:+ dq +:+ "inforead" +:+ dq +:+ "]".

(** [json.Unmarshal] into [[]string] on the payloads used below; any other
    text is reported as a syntax error. *)
Definition unmarshal (s : string) : error + list string :=
  if decide (s = payloadThree) then inr ["info:read"; "offchain:send"; "onchain:read"]
  else if decide (s = payloadMalformed) then inr ["inforead"]
  else inl (ErrCollaborator "invalid character").

Definition parsePub (bs : list byte) : error + list byte :=
  match bs with
  | x02 :: _ | x03 :: _ =>
      if decide (length bs = 33) then inr bs
      else inl (ErrCollaborator "malformed public key: invalid length")
  | _ => inl (ErrCollaborator "unsupported public key format")
  end.

Definition getInfo : Invoker := fun _ => [inr "{}"].

Definition world (cap : Z) : World :=
  {| PrivateKey := list byte;
     PublicKey := list byte;
     PrivKeyFromBytes := fun bs => bs;
     ParsePubKey := parsePub;
     Serialize := fun k => k;
     SerializeCompressed := fun k => k;
     json_Unmarshal_strings := unmarshal;
     RegisterLightningJSONCallbacks := fun m => <["lnrpc.Lightning.GetInfo" := getInfo]> m;
     NewPermissionManager := fun _ =>
       inr (mkPermissionManager {[ ("info", "read"); ("offchain", "*") ]});
     perms_check := PermissionManager_check;
     LNCD_TIMEOUT := 300 * second;
     LNCD_LIMIT_ACTIVE_CONNECTIONS := cap |}.

Definition peer : list byte := x02 :: replicate 32 x11.

Definition peerHex : string := hex_EncodeToString peer.

Definition io (cap : Z) : Oracle (world cap) :=
  mkOracle (world cap) (inr (replicate 32 x2a))
    (fun _ _ _ _ =>
       inr (mkDialResult (world cap) (Some peer) (Some [x01]) 7 "Connected")).

Definition descriptor (phrase localKey : string) : ConnectionInfo :=
  mkConnectionInfo "mailbox.terminal.lightning.today:443" phrase localKey
                   EmptyString EmptyString None.

Definition alice : ConnectionInfo := descriptor "alpha beta gamma delta" EmptyString.
Definition bob : ConnectionInfo := descriptor "one two three four" EmptyString.
Definition badKey : ConnectionInfo := descriptor "alpha beta gamma delta" "zz".

Definition getInfoAction (n : nat) : Action :=
  mkAction n "lnrpc.Lightning.GetInfo" "{}".

Definition session : Connection :=
  {| connInfo := alice; actions := []; actionsClosed := false; grpcClient := 7;
     registry := <["lnrpc.Lightning.GetInfo" := getInfo]> ∅;
     timeoutTimer := None;
     perms := mkPermissionManager {[ ("info", "read"); ("offchain", "*") ]} |}.

(** The pool after one request for [alice] has been admitted. *)
Definition poolWithAlice (cap : Z) : ConnectionPool :=
  (execute (world cap) 1 (io cap) 0 NewConnectionPool alice (getInfoAction 1)).1.1.

(** A request for [alice], a second one while the first is still queued, a
    receive of her dispatch loop and two firings of her idle timer. *)
Definition schedule : list (label (world 1)) :=
  [Attempt (io 1) 0 alice (getInfoAction 1);
   Attempt (io 1) second bob (getInfoAction 2);
   TimerFire (300 * second) 0;
   Receive 0;
   TimerFire (600 * second) 0].

Definition queued : Connection :=
  {| connInfo := alice; actions := [getInfoAction 1]; actionsClosed := false;
     grpcClient := 7;
     registry := <["lnrpc.Lightning.GetInfo" := getInfo]> ∅;
     timeoutTimer := Some (mkTimer (300 * second) (descriptorKey alice));
     perms := mkPermissionManager {[ ("info", "read"); ("offchain", "*") ]} |}.

(** A pool holding the session [queued] for [alice]. *)
Definition poolQueued : ConnectionPool :=
  {| connections := {[ descriptorKey alice := 0 ]}; mutex := false;
     heap := {[ 0 := queued ]}; nextPtr := 1; parked := None |}.

(** The same pool once the dispatch loop has emptied the channel. *)
Definition poolIdle : ConnectionPool :=
  {| connections := {[ descriptorKey alice := 0 ]}; mutex := false;
     heap := {[ 0 := withActions queued [] ]}; nextPtr := 1; parked := None |}.

(** The pool after [alice]'s idle timer found her channel empty. *)
Definition poolEvicted : ConnectionPool :=
  (timerFire (world 1) (300 * second) poolIdle 0).1.

End Demo.

(** ** Configuration from the environment *)

Module Config.

(** [os.LookupEnv] on the process environment [environ]. *)
Definition getEnv (environ : gmap string string) (key defaultValue : string) : string :=
  match environ !! key with
  | Some value => value
  | None => defaultValue
  end.

Definition getEnvAsInt (Atoi : string -> option Z) (environ : gmap string string)
           (key : string) (defaultValue : Z) : Z :=
  let valueStr := getEnv environ key EmptyString in
  match Atoi valueStr with
  | Some value => value
  | None => defaultValue
  end.

Definition getEnvAsDuration (ParseDuration : string -> option Z)
           (environ : gmap string string) (key : string) (defaultValue : Z) : Z :=
  let valueStr := getEnv environ key EmptyString in
  match ParseDuration valueStr with
  | Some value => value
  | None => defaultValue
  end.

(** [strconv.ParseBool]: six spellings of each truth value. *)
Definition ParseBool (str : string) : option bool :=
  if decide (str ∈ ["1"; "t"; "T"; "TRUE"; "true"; "True"]) then Some true
  else if decide (str ∈ ["0"; "f"; "F"; "FALSE"; "false"; "False"]) then Some false
  else None.

Definition getEnvAsBool (environ : gmap string string) (key : string)
           (defaultValue : bool) : bool :=
  let valueStr := getEnv environ key EmptyString in
  match ParseBool valueStr with
  | Some value => value
  | None => defaultValue
  end.

(** The package-level variables read by the pool and by the logging of
    secrets. *)
Definition TIMEOUT (ParseDuration : string -> option Z) (environ : gmap string string) : Z :=
  getEnvAsDuration ParseDuration environ "LNCD_TIMEOUT" (5 * 60 * second).

Definition LIMIT_ACTIVE_CONNECTIONS (Atoi : string -> option Z)
           (environ : gmap string string) : Z :=
  getEnvAsInt Atoi environ "LNCD_LIMIT_ACTIVE_CONNECTIONS" 210.

Definition UNSAFE_LOGS (environ : gmap string string) : bool :=
  getEnvAsBool environ "LNCD_DEV_UNSAFE_LOG" false.

End Config.

(** ** The authorization data callback of [NewConnection] *)

(** [strings.Split (s, ": ")]: cut at each occurrence of the separator, from
    the left. *)
Fixpoint splitColonSpace (s : string) : list string :=
  match s with
  | EmptyString => [EmptyString]
  | String c rest =>
      match rest with
      | String c' rest' =>
          if Ascii.eqb c ":" && Ascii.eqb c' " " then
            EmptyString :: splitColonSpace rest'
          else
            match splitColonSpace rest with
            | part :: parts => String c part :: parts
            | [] => [String c EmptyString]
            end
      | EmptyString => [String c EmptyString]
      end
  end.

(** The closure handed to the transport for the peer's authorization data
    ([data] is the byte slice read as a string).  The error made with
    [errors.New] is carried with its message. *)
Definition onAuthData (UnmarshalBinary : list byte -> error + Macaroon)
           (data : string) : error + Macaroon :=
  match splitColonSpace data with
  | [kind; hexMac] =>
      if decide (kind <> "Macaroon") then
        inl (ErrCollaborator "authdata does not contain a macaroon")
      else
        match hex_DecodeString hexMac with
        | inl err => inl err
        | inr macBytes =>
            match UnmarshalBinary macBytes with
            | inl err => inl err
            | inr mac => inr mac
            end
        end
  | _ => inl (ErrCollaborator "authdata does not contain a macaroon")
  end.

(** [strings.Join (parts, ": ")]. *)
Fixpoint joinColonSpace (parts : list string) : string :=
  match parts with
  | [] => EmptyString
  | [part] => part
  | part :: rest => part +:+ ": " +:+ joinColonSpace rest
  end.

Fixpoint colonFree (s : string) : bool :=
  match s with
  | EmptyString => true
  | String c rest => negb (Ascii.eqb c ":") && colonFree rest
  end.

(** ** The HTTP front door *)

Module Http.

(** What a handler needs of a request: its method, the first value of its
    [Authorization] header if there is one, and its body. *)
Record Request : Type := mkRequest {
  Method : string;
  Authorization : option string;
  Body : string
}.

Record RpcRequest : Type := mkRpcRequest {
  rpcConnection : ConnectionInfo;
  rpcMethod : string;
  rpcPayload : string
}.

(** The text of an error reply: a literal of the handler or [err.Error()]. *)
Inductive message : Type :=
| Literal (text : string)
| ErrorOf (err : error).

(** What a handler does with a request: it writes a JSON error with a status
    code ([writeJSONError]), or it calls [pool.execute]. *)
Inductive reply : Type :=
| JSONError (msg : message) (statusCode : Z)
| Execute (info : ConnectionInfo) (req : Action).

Definition writeJSONError (msg : message) (statusCode : Z) : reply :=
  JSONError msg statusCode.

Definition StatusBadRequest : Z := 400.
Definition StatusUnauthorized : Z := 401.
Definition StatusMethodNotAllowed : Z := 405.

(** [r.Header.Get]: the empty string when the header is absent. *)
Definition Header_Get (h : option string) : string :=
  match h with
  | Some v => v
  | None => EmptyString
  end.

Definition HasPrefix (s prefix : string) : bool := String.prefix prefix s.

Definition TrimPrefix (s prefix : string) : string :=
  if HasPrefix s prefix then
    String.substring (String.length prefix) (String.length s - String.length prefix) s
  else s.

Definition authMiddleware (LNCD_AUTH_TOKEN : string) (next : Request -> reply)
           (r : Request) : reply :=
  if decide (LNCD_AUTH_TOKEN <> EmptyString) then
    let authHeader := Header_Get (Authorization r) in
    if negb (HasPrefix authHeader "Bearer ") then
      writeJSONError (Literal "Unauthorized") StatusUnauthorized
    else
      let token := TrimPrefix authHeader "Bearer " in
      if decide (token <> LNCD_AUTH_TOKEN) then
        writeJSONError (Literal "Unauthorized") StatusUnauthorized
      else next r
  else next r.

(** [rpcHandler] up to its call of [pool.execute]; [Decode] is the JSON
    decoder of the body and [tag] names the two closures made for this
    request. *)
Definition rpcHandler (Decode : string -> error + RpcRequest) (tag : nat)
           (r : Request) : reply :=
  if decide (Method r <> "POST") then
    writeJSONError (Literal "Method not allowed") StatusMethodNotAllowed
  else
    match Decode (Body r) with
    | inl err => writeJSONError (ErrorOf err) StatusBadRequest
    | inr request =>
        Execute (rpcConnection request)
                (mkAction tag (rpcMethod request) (rpcPayload request))
    end.

End Http.

(** What [execute] itself may do to the callbacks of the action [req] it was
    given for [info]: report the cap or the error of session construction
    through [onError]; it neither answers nor runs an invoker. *)
Definition reportsOwnError (W : World) (io : Oracle W) (info : ConnectionInfo)
           (req : Action) (e : event) : Prop :=
  match e with
  | EvOnError r err =>
      r = req /\ (err = ErrTooManyConnections \/ NewConnection W io info = inl err)
  | EvOnResponse _ _ _ => False
  | EvInvoke _ _ => False
  | _ => True
  end.

(** ** Channels and the mutex *)

(** Every channel holds at most one action, and a sender is parked only
    while it holds the mutex, on a live session whose channel is full. *)
Record queueInvariant (pool : ConnectionPool) : Prop := mkQueueInvariant {
  q_capacity : forall p conn, heap pool !! p = Some conn -> length (actions conn) <= 1;
  q_parked : forall q waiting, parked pool = Some (q, waiting) ->
    mutex pool = true /\
    exists conn, heap pool !! q = Some conn /\ live conn /\ length (actions conn) = 1
}.

(** ** btcec: keys on secp256k1 *)

(** The key functions of [btcec] that [parseKeys] and [NewConnection] call,
    on the curve [y^2 = x^3 + 7] over the field of [fieldPrime] elements.  A
    private key is its scalar, a public key its affine coordinates. *)
Module Btcec.

Local Open Scope Z_scope.

#[global] Instance byte_eq_decision : EqDecision byte := Byte.byte_eq_dec.

Definition fieldPrime : Z := 2 ^ 256 - 2 ^ 32 - 977.

Definition groupOrder : Z :=
  0xFFFFFFFFFFFFFFFFFFFFFFFFFFFFFFFEBAAEDCE6AF48A03BBFD25E8CD0364141.

Definition byteValue (b : byte) : Z := Z.of_N (Byte.to_N b).

Definition byteOf (v : Z) : byte := byte_of_ascii (ascii_of_N (Z.to_N (v mod 256))).

(** A byte slice read as a big-endian number. *)
Fixpoint bigEndian (acc : Z) (bs : list byte) : Z :=
  match bs with
  | [] => acc
  | b :: rest => bigEndian (acc * 256 + byteValue b) rest
  end.

(** The [n] low bytes of a number, big-endian. *)
Fixpoint toBytes (n : nat) (v : Z) : list byte :=
  match n with
  | O => []
  | S n' => toBytes n' (v / 256) ++ [byteOf v]
  end.

(** [btcec.PrivKeyFromBytes]: the slice is cut to its first 32 bytes, read as
    a big-endian number and reduced modulo the group order; no length is
    refused. *)
Definition PrivKeyFromBytes (pk : list byte) : Z :=
  bigEndian 0 (take 32%nat pk) mod groupOrder.

Definition Serialize (key : Z) : list byte := toBytes 32%nat key.

Definition isOnCurve (x y : Z) : bool :=
  (y * y) mod fieldPrime =? (x * x * x + 7) mod fieldPrime.

Fixpoint powMod (b : Z) (e : positive) : Z :=
  match e with
  | xH => b mod fieldPrime
  | xO e' => let r := powMod b e' in (r * r) mod fieldPrime
  | xI e' => let r := powMod b e' in ((r * r) mod fieldPrime * b) mod fieldPrime
  end.

(** The [y] of the given parity for an [x], when [x^3 + 7] is a square. *)
Definition DecompressY (x : Z) (wantOddY : bool) : option Z :=
  let c := (x * x * x + 7) mod fieldPrime in
  let y := powMod c (Z.to_pos ((fieldPrime + 1) / 4)) in
  if (y * y) mod fieldPrime =? c then
    Some (if Bool.eqb (Z.odd y) wantOddY then y else (fieldPrime - y) mod fieldPrime)
  else None.

(** [btcec.ParsePubKey]: by length, a 65-byte uncompressed ([04]) or hybrid
    ([06], [07]) key or a 33-byte compressed ([02], [03]) key; coordinates
    must be below the field prime and the point on the curve. *)
Definition ParsePubKey (serialized : list byte) : error + (Z * Z) :=
  if decide (length serialized = 65%nat) then
    match serialized with
    | format :: coords =>
        if decide (format = x04 \/ format = x06 \/ format = x07) then
          let x := bigEndian 0 (take 32%nat coords) in
          let y := bigEndian 0 (take 32%nat (drop 32%nat coords)) in
          if (fieldPrime <=? x) then
            inl (ErrCollaborator "invalid public key: x >= field prime")
          else if (fieldPrime <=? y) then
            inl (ErrCollaborator "invalid public key: y >= field prime")
          else if decide (format = x06 /\ Z.odd y = true) then
            inl (ErrCollaborator "invalid public key: y oddness does not match")
          else if decide (format = x07 /\ Z.odd y = false) then
            inl (ErrCollaborator "invalid public key: y oddness does not match")
          else if isOnCurve x y then inr (x, y)
          else inl (ErrCollaborator "invalid public key: not on secp256k1 curve")
        else inl (ErrCollaborator "invalid public key: unsupported format")
    | [] => inl (ErrCollaborator "malformed public key: invalid length")
    end
  else if decide (length serialized = 33%nat) then
    match serialized with
    | format :: coords =>
        if decide (format = x02 \/ format = x03) then
          let x := bigEndian 0 coords in
          if (fieldPrime <=? x) then
            inl (ErrCollaborator "invalid public key: x >= field prime")
          else
            match DecompressY x (bool_decide (format = x03)) with
            | Some y => inr (x, y)
            | None => inl (ErrCollaborator "invalid public key: x coordinate not on curve")
            end
        else inl (ErrCollaborator "invalid public key: unsupported format")
    | [] => inl (ErrCollaborator "malformed public key: invalid length")
    end
  else inl (ErrCollaborator "malformed public key: invalid length").

Definition SerializeCompressed (key : Z * Z) : list byte :=
  (if Z.odd key.2 then x03 else x02) :: toBytes 32%nat key.1.

(** The daemon's collaborators with [btcec]'s keys in the place of the
    stand-ins of [Demo.world]. *)
Definition world (cap : Z) : World :=
  mkWorld Z (Z * Z) PrivKeyFromBytes ParsePubKey Serialize SerializeCompressed
          Demo.unmarshal
          (fun m => <["lnrpc.Lightning.GetInfo" := Demo.getInfo]> m)
          (fun _ => inr (mkPermissionManager {[ ("info", "read"); ("offchain", "*") ]}))
          PermissionManager_check
          (300 * second)
          cap.

Definition io (cap : Z) : Oracle (world cap) :=
  mkOracle (world cap) (inr 42)
    (fun _ _ _ _ => inl (ErrCollaborator "mailbox unreachable")).

(** The generator of the group, uncompressed: [04], then its two
    coordinates. *)
Definition generatorX : Z :=
  0x79BE667EF9DCBBAC55A06295CE870B07029BFCDB2DCE28D959F2815B16F81798.

Definition generatorY : Z :=
  0x483ADA7726A3C4655DA4FBFC0E1108A8FD17B448A68554199C47D08FFB10D4B8.

Definition generatorUncompressed : list byte :=
  x04 :: toBytes 32%nat generatorX ++ toBytes 32%nat generatorY.

(** The same 65 bytes in hex, as a descriptor's [RemoteKey] would carry
    them. *)
Definition generatorHex : string :=
  "0479be667ef9dcbbac55a06295ce870b07029bfcdb2dce28d959f2815b16f81798483ada7726a3c4655da4fbfc0e1108a8fd17b448a68554199c47d08ffb10d4b8".

End Btcec.

(** ** The key parser as a validator *)

(** The reading of [parseKeys] under which a local key it accepts is a
    32-byte scalar. *)
Definition localKeyIs32Bytes (W : World) : Prop :=
  forall (io : Oracle W) localHex priv,
    localHex <> EmptyString ->
    parseKeys W io localHex EmptyString = inr (priv, None) ->
    exists lb, hex_DecodeString localHex = inr lb /\ length lb = 32.

(** The reading of [parseKeys] under which a remote key it accepts is a
    compressed point: 33 bytes, the first [02] or [03]. *)
Definition remoteKeyIsCompressed (W : World) : Prop :=
  forall (io : Oracle W) localHex remoteHex priv pub,
    localHex <> EmptyString -> remoteHex <> EmptyString ->
    parseKeys W io localHex remoteHex = inr (priv, Some pub) ->
    exists rb, hex_DecodeString remoteHex = inr rb /\ length rb = 33
               /\ (head rb = Some x02 \/ head rb = Some x03).

(** ** Reading the answer of [checkPerms] *)

(** One or more JSON booleans separated by commas, up to the closing
    bracket. *)
Fixpoint decodeItems (s : string) : option (list bool) :=
  match s with
  | String c1 (String c2 (String c3 (String c4 rest))) =>
      if Ascii.eqb c1 "t" && Ascii.eqb c2 "r" && Ascii.eqb c3 "u" && Ascii.eqb c4 "e" then
        match rest with
        | String c rest' =>
            if Ascii.eqb c "]" then
              match rest' with
              | EmptyString => Some [true]
              | _ => None
              end
            else if Ascii.eqb c "," then cons true <$> decodeItems rest'
            else None
        | EmptyString => None
        end
      else if Ascii.eqb c1 "f" && Ascii.eqb c2 "a" && Ascii.eqb c3 "l" && Ascii.eqb c4 "s" then
        match rest with
        | String c5 (String c rest') =>
            if Ascii.eqb c5 "e" then
              if Ascii.eqb c "]" then
                match rest' with
                | EmptyString => Some [false]
                | _ => None
                end
              else if Ascii.eqb c "," then cons false <$> decodeItems rest'
              else None
            else None
        | _ => None
        end
      else None
  | _ => None
  end.

(** A JSON text read as an array of booleans (no white space, as
    [json.Marshal] writes it). *)
Definition decodeBoolArray (s : string) : option (list bool) :=
  match s with
  | String c rest =>
      if Ascii.eqb c "[" then
        match rest with
        | String c' EmptyString => if Ascii.eqb c' "]" then Some [] else None
        | _ => decodeItems rest
        end
      else None
  | EmptyString => None
  end.

(** A requested permission is allowed by the capability set, in the words of
    section 4.D: it is an entity and an action separated by one colon, and
    the set holds the exact pair, or the entity with any action, or any
    entity with the action, or any entity with any action. *)
Definition allowedBy (pm : PermissionManager) (requested : string) : Prop :=
  exists entity action,
    requested = entity +:+ ":" +:+ action
    /\ colonFree entity = true /\ colonFree action = true
    /\ ((entity, action) ∈ capabilities pm \/ (entity, "*") ∈ capabilities pm \/
        ("*", action) ∈ capabilities pm \/ ("*", "*") ∈ capabilities pm).

(** * Properties *)

(** ** Key material parser *)

Lemma hex_DecodeString_empty : hex_DecodeString EmptyString = inr [].
Proof. reflexivity. Qed.

(** What [hex.EncodeToString] writes, [hex.DecodeString] reads back. *)
Lemma hex_DecodeString_EncodeToString (bs : list byte) :
  hex_DecodeString (hex_EncodeToString bs) = inr bs.
Proof.
  induction bs as [| v bs IH]; [done |].
  destruct v; simpl; rewrite IH; reflexivity.
Qed.

Lemma isError_nonempty (s : string) :
  isError (hex_DecodeString s) -> s <> EmptyString.
Proof. intros H ->. exact H. Qed.

(** [parseKeys] has three cases chosen by which inputs are empty: both
    empty takes the key minted by [btcec.NewPrivateKey] and no remote point;
    an empty remote with a local key decodes the local key and yields no
    remote point; both present decodes both and validates the remote point.
    Whenever a hex decode or the validation of the remote point fails,
    [parseKeys] fails. *)
Lemma parseKeys_three_cases (W : World) (io : Oracle W) :
  parseKeys W io EmptyString EmptyString
    = match NewPrivateKey io with
      | inl err => inl err
      | inr privKey => inr (privKey, None)
      end
  /\ (forall localHex, localHex <> EmptyString ->
        parseKeys W io localHex EmptyString
          = match hex_DecodeString localHex with
            | inl err => inl err
            | inr bs => inr (PrivKeyFromBytes W bs, None)
            end)
  /\ (forall localHex remoteHex,
        localHex <> EmptyString -> remoteHex <> EmptyString ->
        parseKeys W io localHex remoteHex
          = match hex_DecodeString localHex with
            | inl err => inl err
            | inr lb =>
                match hex_DecodeString remoteHex with
                | inl err => inl err
                | inr rb =>
                    match ParsePubKey W rb with
                    | inl err => inl err
                    | inr remotePoint => inr (PrivKeyFromBytes W lb, Some remotePoint)
                    end
                end
            end)
  /\ (forall localHex remoteHex,
        isError (hex_DecodeString localHex) ->
        isError (parseKeys W io localHex remoteHex))
  /\ (forall localHex remoteHex,
        isError (hex_DecodeString remoteHex) ->
        isError (parseKeys W io localHex remoteHex))
  /\ (forall localHex remoteHex rb,
        remoteHex <> EmptyString ->
        hex_DecodeString remoteHex = inr rb ->
        isError (ParsePubKey W rb) ->
        isError (parseKeys W io localHex remoteHex)).
Proof.
  repeat apply conj.
  - unfold parseKeys. by rewrite decide_True.
  - intros localHex Hl. unfold parseKeys.
    rewrite decide_False by tauto. by rewrite decide_True.
  - intros localHex remoteHex Hl Hr. unfold parseKeys.
    rewrite decide_False by tauto. by rewrite decide_False.
  - intros localHex remoteHex Herr.
    pose proof (isError_nonempty _ Herr) as Hl. unfold parseKeys.
    rewrite decide_False by tauto.
    destruct (hex_DecodeString localHex); [| done].
    by case_decide.
  - intros localHex remoteHex Herr.
    pose proof (isError_nonempty _ Herr) as Hr. unfold parseKeys.
    rewrite decide_False by tauto. rewrite decide_False by done.
    destruct (hex_DecodeString localHex); [done |].
    by destruct (hex_DecodeString remoteHex).
  - intros localHex remoteHex rb Hr Hdec Herr. unfold parseKeys.
    rewrite decide_False by tauto. rewrite decide_False by done.
    destruct (hex_DecodeString localHex); [done |].
    rewrite Hdec. by destruct (ParsePubKey W rb).
Qed.

Example parseKeys_mints :
  parseKeys (Demo.world 210) (Demo.io 210) EmptyString EmptyString
    = inr (replicate 32 x2a, None).
Proof. reflexivity. Qed.

Example parseKeys_local_only :
  parseKeys (Demo.world 210) (Demo.io 210) "0a" EmptyString = inr ([x0a], None).
Proof. reflexivity. Qed.

Example parseKeys_bad_digit :
  parseKeys (Demo.world 210) (Demo.io 210) "zz" EmptyString
    = inl (InvalidByteError "z").
Proof. reflexivity. Qed.

Example parseKeys_odd_length :
  parseKeys (Demo.world 210) (Demo.io 210) "0a1" Demo.peerHex = inl ErrLength.
Proof. reflexivity. Qed.

Example parseKeys_both :
  parseKeys (Demo.world 210) (Demo.io 210) "0a" Demo.peerHex
    = inr ([x0a], Some Demo.peer).
Proof. reflexivity. Qed.

Example parseKeys_bad_point :
  parseKeys (Demo.world 210) (Demo.io 210) "0a" "05"
    = inl (ErrCollaborator "unsupported public key format").
Proof. reflexivity. Qed.

(** C10. With an empty local key and a non-empty remote key, [parseKeys]
    runs its default branch: the empty string decodes to the empty byte
    slice, the private key is derived from those bytes (no key is minted and
    the empty local key is no error), and the remote key is still decoded
    and validated. *)
Theorem parseKeys_remote_only (W : World) (io : Oracle W) (remoteHex : string) :
  remoteHex <> EmptyString ->
  hex_DecodeString EmptyString = inr []
  /\ parseKeys W io EmptyString remoteHex
     = match hex_DecodeString remoteHex with
       | inl err => inl err
       | inr rb =>
           match ParsePubKey W rb with
           | inl err => inl err
           | inr remotePoint => inr (PrivKeyFromBytes W [], Some remotePoint)
           end
       end.
Proof.
  intros Hr. split; [reflexivity |].
  unfold parseKeys. rewrite decide_False by tauto.
  by rewrite decide_False.
Qed.

Lemma parseKeys_remote_only_witness :
  Demo.peerHex <> EmptyString
  /\ parseKeys (Demo.world 210) (Demo.io 210) EmptyString Demo.peerHex
     = inr ([], Some Demo.peer).
Proof.
  split; [discriminate |].
  exact (proj2 (parseKeys_remote_only (Demo.world 210) (Demo.io 210) Demo.peerHex
                  ltac:(discriminate))).
Defined.

(** ** Dispatch loop *)

Lemma checkEach_map (W : World) (pm : PermissionManager) (rest : list string) :
  forall (i : nat) (valid : list bool),
    length valid = i + length rest ->
    checkEach W pm i rest valid = take i valid ++ map (verdict W pm) rest.
Proof.
  induction rest as [| perm rest IH]; intros i valid Hlen; simpl in *.
  - rewrite take_ge by lia. by rewrite app_nil_r.
  - assert (Hstep : forall b,
      checkEach W pm (S i) rest (<[i := b]> valid)
        = take i valid ++ b :: map (verdict W pm) rest).
    { intros b. rewrite IH by (rewrite length_insert; lia).
      rewrite (take_S_r _ _ b) by (apply list_lookup_insert_eq; lia).
      rewrite take_insert_ge by lia. by rewrite <- app_assoc. }
    destruct (perms_check W pm perm) eqn:Hcheck; rewrite Hstep;
      do 2 f_equal; unfold verdict; by rewrite Hcheck.
Qed.

Lemma dispatch_checkPerms (W : World) (conn : Connection) (req : Action) :
  method req = "checkPerms" ->
  dispatch W conn req
    = match json_Unmarshal_strings W (payload req) with
      | inl err => [EvOnError req err]
      | inr permList =>
          [EvOnResponse req (connInfo conn)
             (jsonArray (map (verdict W (perms conn)) permList))]
      end.
Proof.
  intros Hm. unfold dispatch. rewrite decide_True by done.
  destruct (json_Unmarshal_strings W (payload req)) as [err | permList]; [done |].
  rewrite checkEach_map by (rewrite length_replicate; lia).
  done.
Qed.

(** C4, as the code has it.  A [checkPerms] action whose payload does not
    parse ends with a single [onError] and no [onResponse].  Once the payload
    has parsed, the action ends with a single [onResponse] and no [onError]:
    a permission whose check fails is reported as [false] at its position. *)
Theorem checkPerms_outcome (W : World) (conn : Connection) (req : Action) :
  method req = "checkPerms" ->
  match json_Unmarshal_strings W (payload req) with
  | inl err => dispatch W conn req = [EvOnError req err]
  | inr permList =>
      dispatch W conn req
        = [EvOnResponse req (connInfo conn)
             (jsonArray (map (verdict W (perms conn)) permList))]
      /\ forall i perm, permList !! i = Some perm ->
           isError (perms_check W (perms conn) perm) ->
           map (verdict W (perms conn)) permList !! i = Some false
  end.
Proof.
  intros Hm. rewrite (dispatch_checkPerms W conn req Hm).
  destruct (json_Unmarshal_strings W (payload req)) as [err | permList]; [done |].
  split; [done |].
  intros i perm Hi Herr.
  change (map (verdict W (perms conn)) permList)
    with (verdict W (perms conn) <$> permList).
  rewrite list_lookup_fmap, Hi. simpl. unfold verdict.
  by destruct (perms_check W (perms conn) perm).
Qed.

Lemma checkPerms_outcome_witness :
  dispatch (Demo.world 210) Demo.session (mkAction 3 "checkPerms" Demo.payloadMalformed)
    = [EvOnResponse (mkAction 3 "checkPerms" Demo.payloadMalformed) Demo.alice "[false]"].
Proof.
  exact (proj1 (checkPerms_outcome (Demo.world 210) Demo.session
                  (mkAction 3 "checkPerms" Demo.payloadMalformed) eq_refl)).
Defined.

(** C4, as stated, fails: the payload parses to one permission string with
    no colon, its check fails with [BadPermissionFormat], and the action still
    ends with [onResponse]. *)
Lemma checkPerms_check_failure_not_short_circuited :
  ~ checkPermsFailureShortCircuits (Demo.world 210) Demo.session
      (mkAction 3 "checkPerms" Demo.payloadMalformed).
Proof.
  intros H.
  destruct H as [err Herr]; [reflexivity | | discriminate Herr].
  right. exists ["inforead"], "inforead".
  split; [reflexivity |]. split; [apply list_elem_of_here | exact I].
Qed.

Lemma verdict_permitted (W : World) (pm : PermissionManager) (perm : string) :
  verdict (withSpecCheck W) pm perm = true <-> permitted pm perm.
Proof.
  unfold verdict, permitted. simpl. unfold PermissionManager_check.
  destruct (parsePermission perm) as [[entity action] |].
  - rewrite !orb_true_iff, !bool_decide_eq_true. split.
    + intros H. exists entity, action. tauto.
    + intros (e & a & Heq & H). inversion Heq; subst. tauto.
  - split; [discriminate |]. by intros (e & a & Heq & _).
Qed.

(** The verdicts behind the answer of [checkPerms], by the permission check
    of section 4.D. *)
Lemma checkPerms_verdicts (W : World) (conn : Connection) (req : Action)
      (permList : list string) :
  method req = "checkPerms" ->
  json_Unmarshal_strings W (payload req) = inr permList ->
  exists valid : list bool,
    dispatch (withSpecCheck W) conn req
      = [EvOnResponse req (connInfo conn) (jsonArray valid)]
    /\ length valid = length permList
    /\ forall i perm, permList !! i = Some perm ->
         exists b, valid !! i = Some b /\ (b = true <-> permitted (perms conn) perm).
Proof.
  intros Hm Hparse.
  exists (verdict (withSpecCheck W) (perms conn) <$> permList).
  repeat apply conj.
  - rewrite (dispatch_checkPerms (withSpecCheck W) conn req Hm). simpl.
    by rewrite Hparse.
  - apply length_fmap.
  - intros i perm Hi. exists (verdict (withSpecCheck W) (perms conn) perm).
    split; [by rewrite list_lookup_fmap, Hi | apply verdict_permitted].
Qed.

(** The array is read back from its text: distinct lists of booleans have
    distinct encodings. *)
Lemma jsonArray_inj (v1 v2 : list bool) : jsonArray v1 = jsonArray v2 -> v1 = v2.
Proof.
  unfold jsonArray. intros H. simpl in H. injection H as H.
  revert v2 H. induction v1 as [| b1 v1 IH]; intros [| b2 v2] H.
  - done.
  - destruct b2, v2; discriminate.
  - destruct b1, v1; discriminate.
  - assert (Hcases : b1 = b2 /\ (join_commas (map bool_json v1) +:+ "]"
                                 = join_commas (map bool_json v2) +:+ "]")).
    { destruct b1, b2, v1 as [| c1 v1], v2 as [| c2 v2]; simpl in H;
        try discriminate; try (split; [done |]);
        try (injection H as H; first [ done | by rewrite H ]);
        try (destruct c1; discriminate); try (destruct c2; discriminate);
        reflexivity. }
    destruct Hcases as [-> Hrest]. f_equal. by apply IH.
Qed.

(** C9. An action whose method is neither [checkPerms] nor a key of the
    registry is completed silently: the iteration of the dispatch loop
    produces no event at all, so no invoker runs and neither callback is
    invoked. *)
Theorem unknown_method_silent (W : World) (conn : Connection) (req : Action) :
  method req <> "checkPerms" ->
  registry conn !! method req = None ->
  dispatch W conn req = []
  /\ callbackCount req (dispatch W conn req) = 0
  /\ forall received, runLoop W conn (received ++ [req]) = runLoop W conn received.
Proof.
  intros Hm Hreg.
  assert (Hd : dispatch W conn req = []).
  { unfold dispatch. rewrite decide_False by done. by rewrite Hreg. }
  repeat apply conj.
  - done.
  - by rewrite Hd.
  - intros received. unfold runLoop.
    rewrite map_app, concat_app. simpl. rewrite Hd. by rewrite !app_nil_r.
Qed.

Lemma unknown_method_silent_witness :
  dispatch (Demo.world 210) Demo.session (mkAction 5 "lnrpc.Lightning.Nope" "{}") = [].
Proof.
  exact (proj1 (unknown_method_silent (Demo.world 210) Demo.session
                  (mkAction 5 "lnrpc.Lightning.Nope" "{}")
                  ltac:(discriminate) eq_refl)).
Defined.

(** ** Admission *)

Lemma withMutex_release (pool : ConnectionPool) :
  mutex pool = false -> withMutex (withMutex pool true) false = pool.
Proof. destruct pool; simpl; by intros ->. Qed.

Lemma try_at_cap (W : World) (io : Oracle W) (now : Z) (pool : ConnectionPool)
      (info : ConnectionInfo) (req : Action) :
  connections pool !! descriptorKey info = None ->
  (LNCD_LIMIT_ACTIVE_CONNECTIONS W <= Z.of_nat (size (connections pool)))%Z ->
  try W io now pool info req = (pool, [EvOnError req ErrTooManyConnections], Returned true).
Proof.
  intros Hk Hcap. unfold try. fold (descriptorKey info). rewrite Hk.
  by rewrite (proj2 (Z.leb_le _ _) Hcap).
Qed.

Lemma callbackCount_rejections (req : Action) (n : nat) :
  callbackCount req (rejections req n) = n.
Proof.
  induction n as [| n IH]; [done |]. simpl.
  rewrite bool_decide_eq_true_2 by done. by rewrite IH.
Qed.

(** C1, at the cap.  While the pool stays at its cap and holds no session
    for the descriptor's key, every pass of [execute]'s loop invokes
    [onError] with "too many active connections" and asks for a retry: after
    [n] passes the action has received [n] callback invocations and
    [execute] has not returned. *)
Theorem execute_at_cap_reports_every_pass (W : World) (io : Oracle W)
        (info : ConnectionInfo) (req : Action) (n : nat) (now : Z)
        (pool : ConnectionPool) :
  mutex pool = false ->
  connections pool !! descriptorKey info = None ->
  (LNCD_LIMIT_ACTIVE_CONNECTIONS W <= Z.of_nat (size (connections pool)))%Z ->
  execute W n io now pool info req = (pool, rejections req n, Retrying)
  /\ callbackCount req (rejections req n) = n.
Proof.
  intros Hm Hk Hcap. split; [| apply callbackCount_rejections].
  revert now. induction n as [| n IH]; intros now; [done |].
  simpl. unfold attempt. rewrite Hm.
  rewrite (try_at_cap W io now (withMutex pool true) info req Hk Hcap).
  rewrite (withMutex_release pool Hm). by rewrite IH.
Qed.

Lemma execute_at_cap_reports_every_pass_witness :
  execute (Demo.world 1) 2 (Demo.io 1) 0 (Demo.poolWithAlice 1) Demo.bob
          (Demo.getInfoAction 2)
    = (Demo.poolWithAlice 1, rejections (Demo.getInfoAction 2) 2, Retrying)
  /\ callbackCount (Demo.getInfoAction 2) (rejections (Demo.getInfoAction 2) 2) = 2.
Proof.
  apply (execute_at_cap_reports_every_pass (Demo.world 1) (Demo.io 1) Demo.bob
           (Demo.getInfoAction 2) 2 0%Z (Demo.poolWithAlice 1)).
  - vm_compute. reflexivity.
  - vm_compute. reflexivity.
  - apply Z.leb_le. vm_compute. reflexivity.
Defined.

(** C2, on the code.  When [NewConnection] fails for a descriptor with no
    session in a pool below its cap, the pass delivers the error to
    [onError], leaves the sessions map and every channel as they were, and
    then panics on the nil connection with the mutex still locked:
    [execute] does not return. *)
Theorem execute_construction_failure (W : World) (io : Oracle W) (now : Z)
        (pool : ConnectionPool) (info : ConnectionInfo) (req : Action) (err : error) :
  mutex pool = false ->
  connections pool !! descriptorKey info = None ->
  (Z.of_nat (size (connections pool)) < LNCD_LIMIT_ACTIVE_CONNECTIONS W)%Z ->
  NewConnection W io info = inl err ->
  forall n,
    execute W (S n) io now pool info req
      = (withMutex pool true,
         [EvLock; EvNewConnection info; EvOnError req err; EvPanic],
         Finished Panicked).
Proof.
  intros Hm Hk Hcap Hnew n. simpl. unfold attempt, try. rewrite Hm.
  change (connections (withMutex pool true)) with (connections pool).
  fold (descriptorKey info). rewrite Hk.
  rewrite (proj2 (Z.leb_gt _ _) Hcap). by rewrite Hnew.
Qed.

Lemma execute_construction_failure_witness :
  execute (Demo.world 210) 1 (Demo.io 210) 0 NewConnectionPool Demo.badKey
          (Demo.getInfoAction 1)
    = (withMutex NewConnectionPool true,
       [EvLock; EvNewConnection Demo.badKey;
        EvOnError (Demo.getInfoAction 1) (InvalidByteError "z"); EvPanic],
       Finished Panicked).
Proof.
  apply (execute_construction_failure (Demo.world 210) (Demo.io 210) 0%Z
           NewConnectionPool Demo.badKey (Demo.getInfoAction 1)
           (InvalidByteError "z")).
  - reflexivity.
  - reflexivity.
  - vm_compute. reflexivity.
  - vm_compute. reflexivity.
Defined.

(** ** The mutex along a trace *)

Lemma occursWithLock_app (sel : event -> bool) (expected : bool) (l1 l2 : list event) :
  forall held,
    occursWithLock sel expected held (l1 ++ l2)
      = occursWithLock sel expected held l1
        && occursWithLock sel expected (heldAfter held l1) l2.
Proof.
  induction l1 as [| e l1 IH]; intros held; [done |].
  destruct e; simpl; rewrite ?IH; try done; by rewrite andb_assoc.
Qed.

Lemma quiet_heldAfter (tr : list event) (held : bool) :
  quiet tr = true -> heldAfter held tr = held.
Proof.
  induction tr as [| e tr IH]; [done |]. simpl. intros H.
  apply andb_true_iff in H as [He Htr]. destruct e; simpl in *; auto; discriminate.
Qed.

Lemma quiet_under_lock (sel : event -> bool) (tr : list event) :
  quiet tr = true -> occursWithLock sel true true tr = true.
Proof.
  induction tr as [| e tr IH]; [done |]. simpl. intros H.
  apply andb_true_iff in H as [He Htr].
  destruct e; simpl in *; try discriminate; rewrite ?IH by done;
    by destruct (sel _).
Qed.

Lemma quiet_no_sleep (expected held : bool) (tr : list event) :
  quiet tr = true -> occursWithLock isSleep expected held tr = true.
Proof.
  induction tr as [| e tr IH]; [done |]. simpl. intros H.
  apply andb_true_iff in H as [He Htr].
  destruct e; simpl in *; try discriminate; by rewrite ?IH.
Qed.

Lemma send_quiet (pool : ConnectionPool) (p : option nat) (req : Action) :
  quiet (send pool p req).1.2 = true.
Proof.
  unfold send.
  destruct (p ≫= _) as [[q connection] |]; [| done].
  destruct (actionsClosed connection); [done |]. by case_decide.
Qed.

Lemma try_quiet (W : World) (io : Oracle W) (now : Z) (pool : ConnectionPool)
      (info : ConnectionInfo) (req : Action) :
  quiet (try W io now pool info req).1.2 = true.
Proof.
  unfold try. destruct (connections pool !! _) as [p |]; [apply send_quiet |].
  destruct (_ <=? _)%Z; [done |].
  destruct (NewConnection W io info) as [err | connection].
  - pose proof (send_quiet pool None req) as H.
    destruct (send pool None req) as [[pool' evs] r]. done.
  - match goal with |- context [send ?P ?Q req] =>
      pose proof (send_quiet P Q req) as H; destruct (send P Q req) as [[pool' evs] r]
    end. done.
Qed.

(** The trace of one pass: nothing if the mutex is taken, else the events
    of [try] after the lock and, when [try] returns, before the unlock. *)
Lemma attempt_trace (W : World) (io : Oracle W) (now : Z) (pool : ConnectionPool)
      (info : ConnectionInfo) (req : Action) :
  exists evs, quiet evs = true /\
    (((attempt W io now pool info req).1.2 = [] /\
        (attempt W io now pool info req).2 = ParkedOnLock)
     \/ ((attempt W io now pool info req).1.2 = EvLock :: evs ++ [EvUnlock] /\
           exists retry, (attempt W io now pool info req).2 = Returned retry)
     \/ ((attempt W io now pool info req).1.2 = EvLock :: evs /\
           forall retry, (attempt W io now pool info req).2 <> Returned retry)).
Proof.
  unfold attempt. destruct (mutex pool).
  { exists []. split; [done |]. by left. }
  pose proof (try_quiet W io now (withMutex pool true) info req) as Hq.
  destruct (try W io now (withMutex pool true) info req) as [[pool' evs] r].
  exists evs. split; [done |]. right.
  destruct r; simpl; [left; eauto | right; split; done ..].
Qed.

(** C3, as the code has it.  In every run of [execute], session
    construction and every other step of [try] (the callbacks it makes, the
    start of the dispatch loop, the send on the session's channel) happen
    while [execute] holds the pool mutex; the only step taken with the mutex
    released is the one-second sleep between two passes. *)
Theorem execute_holds_lock_across_construction (W : World) (n : nat)
        (io : Oracle W) (now : Z) (pool : ConnectionPool)
        (info : ConnectionInfo) (req : Action) :
  occursWithLock isNewConnection true false
                 (execute W n io now pool info req).1.2 = true
  /\ occursWithLock (fun e => negb (isSleep e)) true false
                    (execute W n io now pool info req).1.2 = true
  /\ occursWithLock isSleep false false
                    (execute W n io now pool info req).1.2 = true.
Proof.
  assert (Hgen : forall sel expected,
    sel EvSleep = false \/ (sel = isSleep /\ expected = false) ->
    occursWithLock sel (if sel EvSleep then expected else true) false
                   (execute W n io now pool info req).1.2 = true).
  { intros sel expected Hsel. revert now pool.
    induction n as [| n IH]; intros now pool; [done |]. simpl.
    destruct (attempt_trace W io now pool info req) as (evs & Hq & Hcases).
    destruct (attempt W io now pool info req) as [[pool1 tr] r]. simpl in Hcases.
    assert (Hbody : forall tail,
      occursWithLock sel (if sel EvSleep then expected else true) true (evs ++ tail)
        = occursWithLock sel (if sel EvSleep then expected else true) true tail).
    { intros tail. rewrite occursWithLock_app, (quiet_heldAfter evs true Hq).
      destruct Hsel as [Hs | [-> ->]].
      - rewrite Hs. by rewrite (quiet_under_lock sel evs Hq).
      - simpl. by rewrite (quiet_no_sleep false true evs Hq). }
    destruct Hcases as [[-> ->] | [[-> [retry ->]] | [-> Hr]]].
    - done.
    - destruct retry.
      + specialize (IH (now + second)%Z pool1).
        destruct (execute W n io (now + second) pool1 info req) as [[pool2 tr2] r2].
        simpl in *. rewrite <- app_assoc, Hbody. simpl.
        destruct (sel EvSleep) eqn:Hs.
        * destruct Hsel as [? | [_ ->]]; [congruence |]. done.
        * done.
      + simpl. rewrite Hbody. done.
    - destruct r as [retry | | |]; [by destruct (Hr retry) | ..];
        simpl; by rewrite <- (app_nil_r evs), Hbody. }
  repeat apply conj.
  - apply (Hgen isNewConnection true). by left.
  - apply (Hgen (fun e => negb (isSleep e)) true). by left.
  - apply (Hgen isSleep false). by right.
Qed.

(** C3, as stated, fails: the first request for a descriptor on an empty
    pool constructs the session between the lock and the unlock. *)
Lemma construction_under_lock :
  ~ constructionOutsideLock
      (execute (Demo.world 210) 1 (Demo.io 210) 0 NewConnectionPool Demo.alice
               (Demo.getInfoAction 1)).1.2.
Proof. unfold constructionOutsideLock. vm_compute. discriminate. Qed.

(** ** Pool invariants *)

Lemma NewConnectionPool_invariant (cap : Z) :
  (0 <= cap)%Z -> poolInvariant cap NewConnectionPool.
Proof.
  intros Hcap. constructor; simpl.
  - rewrite map_size_empty. lia.
  - intros k p H. by rewrite lookup_empty in H.
  - intros p conn H. by rewrite lookup_empty in H.
  - intros p conn tm H. by rewrite lookup_empty in H.
  - intros p conn H. by rewrite lookup_empty in H.
Qed.

Lemma NewConnection_fresh (W : World) (io : Oracle W) (info : ConnectionInfo)
      (conn : Connection) :
  NewConnection W io info = inr conn ->
  sessionKey conn = descriptorKey info /\ live conn
  /\ timeoutTimer conn = None /\ actions conn = [].
Proof.
  unfold NewConnection.
  destruct (parseKeys W io _ _) as [err | [localPriv remotePub]]; [done |].
  destruct (NewClientWebsocketConn io _ _ _ _) as [err | d]; [done |].
  destruct (NewPermissionManager W _) as [err | pm]; [done |].
  intros [= <-]. unfold sessionKey, descriptorKey, live. simpl.
  by destruct (peerKey d), (authMacaroon d).
Qed.

(** The invariant reads the sessions map, the heap and the allocator only. *)
Lemma inv_same_maps (cap : Z) (pool pool' : ConnectionPool) :
  connections pool' = connections pool -> heap pool' = heap pool ->
  nextPtr pool' = nextPtr pool ->
  poolInvariant cap pool -> poolInvariant cap pool'.
Proof.
  intros Hc Hh Hn [? ? ? ? ?]. constructor; rewrite ?Hc, ?Hh, ?Hn; done.
Qed.

(** Rewriting a connection in place, keeping its descriptor, its open or
    closed state and the key captured by its timer. *)
Lemma inv_update (cap : Z) (pool : ConnectionPool) (q : nat) (c c' : Connection) :
  poolInvariant cap pool ->
  heap pool !! q = Some c ->
  connInfo c' = connInfo c ->
  actionsClosed c' = actionsClosed c ->
  (timeoutTimer c' = timeoutTimer c
   \/ exists tm tm', timeoutTimer c = Some tm /\ timeoutTimer c' = Some tm'
                     /\ timerKey tm' = timerKey tm) ->
  poolInvariant cap (withHeap pool (<[q := c']> (heap pool))).
Proof.
  intros [Hcap Hinst Hlive Htimer Halloc] Hq Hinfo Hclosed Htm.
  assert (Hkey : sessionKey c' = sessionKey c) by (unfold sessionKey; by rewrite Hinfo).
  assert (Hl : live c' <-> live c) by (unfold live; by rewrite Hclosed).
  constructor; simpl.
  - done.
  - intros k p Hk. destruct (Hinst k p Hk) as (conn & Hp & Hlc & Hkc).
    destruct (decide (p = q)) as [-> | Hne].
    + exists c'. rewrite lookup_insert_eq.
      assert (conn = c) as -> by congruence.
      split; [done |]. split; [by apply Hl | by rewrite Hkey].
    + exists conn. by rewrite lookup_insert_ne.
  - intros p conn Hp Hlc. destruct (decide (p = q)) as [-> | Hne].
    + rewrite lookup_insert_eq in Hp. injection Hp as <-. rewrite Hkey.
      apply Hlive; [done | by apply Hl].
    + rewrite lookup_insert_ne in Hp by done. by apply Hlive.
  - intros p conn tm Hp Ht. destruct (decide (p = q)) as [-> | Hne].
    + rewrite lookup_insert_eq in Hp. injection Hp as <-. rewrite Hkey, Hl.
      destruct Htm as [Heq | (tm0 & tm' & H0 & H' & Hk)].
      * apply (Htimer q c tm); [done | congruence].
      * rewrite H' in Ht. injection Ht as <-. rewrite Hk.
        by apply (Htimer q c tm0).
    + rewrite lookup_insert_ne in Hp by done. by apply (Htimer p conn tm).
  - intros p conn Hp. destruct (decide (p = q)) as [-> | Hne].
    + by apply (Halloc q c).
    + rewrite lookup_insert_ne in Hp by done. by apply (Halloc p conn).
Qed.

Lemma send_target (pool : ConnectionPool) (p : option nat) (q : nat) (c : Connection) :
  p ≫= (fun q => (fun c => (q, c)) <$> heap pool !! q) = Some (q, c) ->
  p = Some q /\ heap pool !! q = Some c.
Proof.
  destruct p as [p0 |]; simpl; [| done].
  destruct (heap pool !! p0) as [c0 |] eqn:Hh; simpl; [| done].
  by intros [= <- <-].
Qed.

Lemma send_invariant (cap : Z) (pool : ConnectionPool) (p : option nat) (req : Action) :
  poolInvariant cap pool -> poolInvariant cap (send pool p req).1.1.
Proof.
  intros Hinv. unfold send.
  destruct (p ≫= _) as [[q connection] |] eqn:Htarget; [| done].
  apply send_target in Htarget as [_ Hq].
  destruct (actionsClosed connection); [done |].
  case_decide; simpl.
  - apply (inv_update cap pool q connection); auto.
  - by apply (inv_same_maps cap pool).
Qed.

(** Installing a freshly constructed session under a key the map lacks. *)
Lemma inv_install (cap : Z) (pool : ConnectionPool) (key : ConnectionKey)
      (conn : Connection) :
  poolInvariant cap pool ->
  connections pool !! key = None ->
  (Z.of_nat (size (connections pool)) < cap)%Z ->
  sessionKey conn = key -> live conn ->
  (forall tm, timeoutTimer conn = Some tm -> timerKey tm = key) ->
  poolInvariant cap
    {| connections := <[key := nextPtr pool]> (connections pool);
       mutex := mutex pool;
       heap := <[nextPtr pool := conn]> (heap pool);
       nextPtr := S (nextPtr pool);
       parked := parked pool |}.
Proof.
  intros [Hcap Hinst Hlive Htimer Halloc] Hnone Hroom Hkey Hlc Htm.
  constructor; simpl.
  - rewrite map_size_insert_None by done. lia.
  - intros k p Hk. apply lookup_insert_Some in Hk as [[<- <-] | [Hne Hk]].
    + exists conn. by rewrite lookup_insert_eq.
    + destruct (Hinst k p Hk) as (c & Hp & Hc).
      exists c. pose proof (Halloc p c Hp).
      rewrite lookup_insert_ne by lia. done.
  - intros p c Hp Hc. apply lookup_insert_Some in Hp as [[<- <-] | [Hne Hp]].
    + rewrite Hkey. by rewrite lookup_insert_eq.
    + pose proof (Hlive p c Hp Hc) as Hin.
      rewrite lookup_insert_ne; [done |]. intros Heq. congruence.
  - intros p c tm Hp Ht. apply lookup_insert_Some in Hp as [[<- <-] | [Hne Hp]].
    + split; [done |]. rewrite Hkey. by apply Htm.
    + by apply (Htimer p c tm).
  - intros p c Hp. apply lookup_insert_Some in Hp as [[<- <-] | [Hne Hp]].
    + lia.
    + pose proof (Halloc p c Hp). lia.
Qed.

Lemma try_invariant (W : World) (io : Oracle W) (now : Z) (pool : ConnectionPool)
      (info : ConnectionInfo) (req : Action) :
  poolInvariant (LNCD_LIMIT_ACTIVE_CONNECTIONS W) pool ->
  poolInvariant (LNCD_LIMIT_ACTIVE_CONNECTIONS W) (try W io now pool info req).1.1.
Proof.
  intros Hinv. unfold try. fold (descriptorKey info).
  destruct (connections pool !! descriptorKey info) as [p |] eqn:Hk.
  { by apply send_invariant. }
  destruct (_ <=? _)%Z eqn:Hcap; [done |].
  apply Z.leb_gt in Hcap.
  destruct (NewConnection W io info) as [err | connection] eqn:Hnew; [done |].
  apply NewConnection_fresh in Hnew as (Hkey & Hlive & Htimer & _).
  match goal with |- context [send ?P ?Q req] =>
    assert (Hinv' : poolInvariant (LNCD_LIMIT_ACTIVE_CONNECTIONS W) P);
      [| pose proof (send_invariant _ P Q req Hinv') as Hsend;
         destruct (send P Q req) as [[pool' evs] r]; exact Hsend]
  end.
  apply (inv_install _ pool (descriptorKey info)); auto.
  simpl. by intros tm [= <-].
Qed.

Lemma attempt_invariant (W : World) (io : Oracle W) (now : Z) (pool : ConnectionPool)
      (info : ConnectionInfo) (req : Action) :
  poolInvariant (LNCD_LIMIT_ACTIVE_CONNECTIONS W) pool ->
  poolInvariant (LNCD_LIMIT_ACTIVE_CONNECTIONS W) (attempt W io now pool info req).1.1.
Proof.
  intros Hinv. unfold attempt. destruct (mutex pool); [done |].
  pose proof (try_invariant W io now (withMutex pool true) info req
                (inv_same_maps _ pool (withMutex pool true)
                               eq_refl eq_refl eq_refl Hinv)) as Htry.
  destruct (try W io now (withMutex pool true) info req) as [[pool' evs] r].
  destruct r; simpl in *; try done.
  by apply (inv_same_maps _ pool').
Qed.

Lemma timerFire_invariant (W : World) (cap : Z) (now : Z) (pool : ConnectionPool)
      (p : nat) :
  poolInvariant cap pool -> poolInvariant cap (timerFire W now pool p).1.
Proof.
  intros Hinv. unfold timerFire.
  destruct (heap pool !! p) as [connection |] eqn:Hp; [| done].
  destruct (timeoutTimer connection) as [tm |] eqn:Htm; [| done].
  destruct (mutex pool); [done |].
  destruct (now <? deadline tm)%Z; [done |].
  case_decide; simpl.
  - destruct Hinv as [Hcap Hinst Hlive Htimer Halloc].
    destruct (Htimer p connection tm Hp Htm) as [Hlc Hkey].
    pose proof (Hlive p connection Hp Hlc) as Hin.
    constructor; simpl.
    + pose proof (map_subseteq_size _ _ (delete_subseteq (connections pool) (timerKey tm))).
      lia.
    + intros k q Hk. apply lookup_delete_Some in Hk as [Hne Hk].
      destruct (Hinst k q Hk) as (c & Hq & Hc & Hck). exists c.
      rewrite lookup_insert_ne; [done |]. intros <-.
      rewrite Hp in Hq. injection Hq as <-. congruence.
    + intros q c Hq Hc. apply lookup_insert_Some in Hq as [[<- <-] | [Hne Hq]].
      { discriminate Hc. }
      pose proof (Hlive q c Hq Hc) as Hqin.
      rewrite lookup_delete_ne; [done |]. rewrite Hkey. intros Heq.
      rewrite Heq in Hin. congruence.
    + intros q c tm' Hq Ht. apply lookup_insert_Some in Hq as [[<- <-] | [Hne Hq]].
      { discriminate Ht. }
      by apply (Htimer q c tm').
    + intros q c Hq. apply lookup_insert_Some in Hq as [[<- <-] | [Hne Hq]].
      * by apply (Halloc p connection).
      * by apply (Halloc q c).
  - apply (inv_update cap pool p connection); auto.
    right. by exists tm, (mkTimer (now + LNCD_TIMEOUT W) (timerKey tm)).
Qed.

Lemma receive_invariant (W : World) (cap : Z) (pool : ConnectionPool) (p : nat) :
  poolInvariant cap pool -> poolInvariant cap (receive W pool p).1.
Proof.
  intros Hinv. unfold receive.
  destruct (heap pool !! p) as [connection |] eqn:Hp; [| done].
  destruct (actions connection) as [| req rest]; [done |].
  assert (Hupd : forall q,
    poolInvariant cap (withHeap pool (<[p := withActions connection q]> (heap pool)))).
  { intros q. apply (inv_update cap pool p connection); auto. }
  destruct (parked pool) as [[q waiting] |]; [| apply Hupd].
  case_decide; [| apply Hupd]. simpl.
  apply (inv_same_maps cap
           (withHeap pool (<[p := withActions connection (rest ++ [waiting])]> (heap pool))));
    [done .. | apply Hupd].
Qed.

Lemma step_invariant (W : World) (pool : ConnectionPool) (l : label W) :
  poolInvariant (LNCD_LIMIT_ACTIVE_CONNECTIONS W) pool ->
  poolInvariant (LNCD_LIMIT_ACTIVE_CONNECTIONS W) (step W pool l).1.
Proof.
  intros Hinv. destruct l as [io now info req | now p | p]; simpl.
  - by apply attempt_invariant.
  - by apply timerFire_invariant.
  - by apply receive_invariant.
Qed.

Lemma run_invariant (W : World) (ls : list (label W)) :
  forall pool,
    poolInvariant (LNCD_LIMIT_ACTIVE_CONNECTIONS W) pool ->
    poolInvariant (LNCD_LIMIT_ACTIVE_CONNECTIONS W) (run W pool ls).1.
Proof.
  induction ls as [| l ls IH]; intros pool Hinv; [done |]. simpl.
  pose proof (step_invariant W pool l Hinv) as Hstep.
  destruct (step W pool l) as [pool1 evs1].
  specialize (IH pool1 Hstep). by destruct (run W pool1 ls) as [pool2 evs2].
Qed.

(** From the empty pool of [NewConnectionPool] and a non-negative cap, every
    state an interleaving reaches satisfies the invariants. *)
Corollary reachable_invariant (W : World) (ls : list (label W)) :
  (0 <= LNCD_LIMIT_ACTIVE_CONNECTIONS W)%Z ->
  poolInvariant (LNCD_LIMIT_ACTIVE_CONNECTIONS W) (run W NewConnectionPool ls).1.
Proof.
  intros Hcap. apply run_invariant. by apply NewConnectionPool_invariant.
Qed.

(** C5. Every interleaving of admission passes of [execute] calls, idle
    timer firings and receives of the dispatch loops preserves the pool
    invariants: the sessions map holds at most
    [LNCD_LIMIT_ACTIVE_CONNECTIONS] entries, and two live sessions whose
    descriptors have the same [(mailbox, pairingPhrase)] key are one and the
    same session, the one the map holds for that key. *)
Theorem pool_invariants_preserved (W : World) (ls : list (label W))
        (pool : ConnectionPool) :
  poolInvariant (LNCD_LIMIT_ACTIVE_CONNECTIONS W) pool ->
  poolInvariant (LNCD_LIMIT_ACTIVE_CONNECTIONS W) (run W pool ls).1
  /\ (Z.of_nat (size (connections (run W pool ls).1))
      <= LNCD_LIMIT_ACTIVE_CONNECTIONS W)%Z
  /\ forall d1 d2 p1 p2 c1 c2,
       descriptorKey d1 = descriptorKey d2 ->
       heap (run W pool ls).1 !! p1 = Some c1 -> live c1 ->
       sessionKey c1 = descriptorKey d1 ->
       heap (run W pool ls).1 !! p2 = Some c2 -> live c2 ->
       sessionKey c2 = descriptorKey d2 ->
       p1 = p2 /\ connections (run W pool ls).1 !! descriptorKey d1 = Some p1.
Proof.
  intros Hinv. pose proof (run_invariant W ls pool Hinv) as Hrun.
  repeat apply conj; [done | apply (inv_cap _ _ Hrun) |].
  intros d1 d2 p1 p2 c1 c2 Hd H1 Hl1 Hk1 H2 Hl2 Hk2.
  pose proof (inv_live _ _ Hrun p1 c1 H1 Hl1) as Hin1.
  pose proof (inv_live _ _ Hrun p2 c2 H2 Hl2) as Hin2.
  rewrite Hk1 in Hin1. rewrite Hk2, <- Hd in Hin2.
  split; [congruence | done].
Qed.

Lemma pool_invariants_preserved_witness :
  poolInvariant 1 (run (Demo.world 1) NewConnectionPool Demo.schedule).1
  /\ (Z.of_nat (size (connections (run (Demo.world 1) NewConnectionPool Demo.schedule).1))
      <= 1)%Z.
Proof.
  pose proof (pool_invariants_preserved (Demo.world 1) Demo.schedule NewConnectionPool
                (NewConnectionPool_invariant 1 ltac:(discriminate))) as H.
  exact (conj (proj1 H) (proj1 (proj2 H))).
Defined.

(** ** The idle timer *)

Lemma send_timer (pool : ConnectionPool) (q : option nat) (req : Action) (p : nat) :
  timerOf (send pool q req).1.1 p = timerOf pool p.
Proof.
  unfold send.
  destruct (q ≫= _) as [[q' connection] |] eqn:Htarget; [| done].
  apply send_target in Htarget as [_ Hq].
  destruct (actionsClosed connection); [done |].
  case_decide; [| done]. unfold timerOf. simpl.
  destruct (decide (q' = p)) as [-> | Hne].
  - by rewrite lookup_insert_eq, Hq.
  - by rewrite lookup_insert_ne.
Qed.

Lemma try_timer (W : World) (io : Oracle W) (now : Z) (pool : ConnectionPool)
      (info : ConnectionInfo) (req : Action) (p : nat) :
  p < nextPtr pool ->
  timerOf (try W io now pool info req).1.1 p = timerOf pool p.
Proof.
  intros Hp. unfold try.
  destruct (connections pool !! _) as [q |]; [apply send_timer |].
  destruct (_ <=? _)%Z; [done |].
  destruct (NewConnection W io info) as [err | connection]; [done |].
  match goal with |- context [send ?P ?Q req] =>
    pose proof (send_timer P Q req p) as Hsend;
      destruct (send P Q req) as [[pool' evs] r]
  end.
  simpl in *. rewrite Hsend. unfold timerOf. simpl.
  rewrite lookup_insert_ne by lia. done.
Qed.

Lemma attempt_timer (W : World) (io : Oracle W) (now : Z) (pool : ConnectionPool)
      (info : ConnectionInfo) (req : Action) (p : nat) :
  p < nextPtr pool ->
  timerOf (attempt W io now pool info req).1.1 p = timerOf pool p.
Proof.
  intros Hp. unfold attempt. destruct (mutex pool); [done |].
  pose proof (try_timer W io now (withMutex pool true) info req p Hp) as Htry.
  destruct (try W io now (withMutex pool true) info req) as [[pool' evs] r].
  by destruct r.
Qed.

Lemma receive_timer (W : World) (pool : ConnectionPool) (q p : nat) :
  timerOf (receive W pool q).1 p = timerOf pool p.
Proof.
  unfold receive.
  destruct (heap pool !! q) as [connection |] eqn:Hq; [| done].
  destruct (actions connection) as [| req rest]; [done |].
  assert (Hupd : forall acts,
    (<[q := withActions connection acts]> (heap pool)) !! p ≫= timeoutTimer
      = timerOf pool p).
  { intros acts. unfold timerOf. destruct (decide (q = p)) as [-> | Hne].
    - by rewrite lookup_insert_eq, Hq.
    - by rewrite lookup_insert_ne. }
  destruct (parked pool) as [[q' waiting] |]; [| apply Hupd].
  case_decide; apply Hupd.
Qed.

Lemma timerFire_other (W : World) (now : Z) (pool : ConnectionPool) (q p : nat) :
  q <> p -> timerOf (timerFire W now pool q).1 p = timerOf pool p.
Proof.
  intros Hne. unfold timerFire.
  destruct (heap pool !! q) as [connection |]; [| done].
  destruct (timeoutTimer connection) as [tm |]; [| done].
  destruct (mutex pool); [done |].
  destruct (now <? deadline tm)%Z; [done |].
  case_decide; unfold timerOf; simpl; by rewrite lookup_insert_ne.
Qed.

Lemma attempt_creates_timer (W : World) (io : Oracle W) (now : Z)
      (pool pool' : ConnectionPool) (info : ConnectionInfo) (req : Action)
      (evs : list event) :
  connections pool !! descriptorKey info = None ->
  attempt W io now pool info req = (pool', evs, Returned false) ->
  timerOf pool' (nextPtr pool)
    = Some (mkTimer (now + LNCD_TIMEOUT W) (descriptorKey info)).
Proof.
  intros Hk. unfold attempt. destruct (mutex pool); [done |].
  unfold try. change (connections (withMutex pool true)) with (connections pool).
  fold (descriptorKey info). rewrite Hk.
  destruct (_ <=? _)%Z; [by intros [= _ _ ?] |].
  destruct (NewConnection W io info) as [err | connection] eqn:Hnew; [done |].
  apply NewConnection_fresh in Hnew as (_ & Hlive & _ & Hacts).
  unfold send. simpl. rewrite lookup_insert_eq. simpl.
  rewrite Hlive, Hacts. simpl. intros [= <- _]. unfold timerOf. simpl.
  by rewrite lookup_insert_eq.
Qed.

(** C6. When the idle timer of a session fires, under the pool mutex: if
    the session's channel is empty, [Close] is run on the session and its key
    is deleted from the sessions map, which no longer points to the session;
    otherwise the timer is reset to fire [LNCD_TIMEOUT] later and the session
    stays in the pool.  No other step touches the timer: sends, receives,
    other sessions' timers and the creation of other sessions leave its
    deadline as it is, and a new session's timer is armed at
    [LNCD_TIMEOUT] past its creation. *)
Theorem idle_timer_firing (W : World) (now : Z) (pool : ConnectionPool) (p : nat)
        (conn : Connection) (tm : Timer) :
  poolInvariant (LNCD_LIMIT_ACTIVE_CONNECTIONS W) pool ->
  mutex pool = false ->
  heap pool !! p = Some conn ->
  timeoutTimer conn = Some tm ->
  (deadline tm <= now)%Z ->
  connections pool !! sessionKey conn = Some p
  /\ (length (actions conn) = 0 ->
      timerFire W now pool p
        = ({| connections := delete (sessionKey conn) (connections pool);
              mutex := false;
              heap := <[p := withTimer (Close conn) None]> (heap pool);
              nextPtr := nextPtr pool;
              parked := parked pool |},
           [EvLock; EvCloseActions p; EvCloseGrpc (grpcClient conn); EvUnlock])
      /\ forall k, connections (timerFire W now pool p).1 !! k <> Some p)
  /\ (length (actions conn) <> 0 ->
      timerFire W now pool p
        = (withHeap pool
             (<[p := withTimer conn (Some (mkTimer (now + LNCD_TIMEOUT W)
                                                   (sessionKey conn)))]> (heap pool)),
           [EvLock; EvUnlock])
      /\ connections (timerFire W now pool p).1 !! sessionKey conn = Some p)
  /\ (forall l, (forall now', l <> TimerFire now' p) ->
        timerOf (step W pool l).1 p = Some tm)
  /\ (forall io now' info req pool' evs,
        connections pool !! descriptorKey info = None ->
        attempt W io now' pool info req = (pool', evs, Returned false) ->
        timerOf pool' (nextPtr pool)
          = Some (mkTimer (now' + LNCD_TIMEOUT W) (descriptorKey info))).
Proof.
  intros Hinv Hm Hp Htm Hdue.
  destruct (inv_timer _ _ Hinv p conn tm Hp Htm) as [Hlive Hkey].
  pose proof (inv_live _ _ Hinv p conn Hp Hlive) as Hin.
  assert (Hfire : forall A (x y : A),
    (if (now <? deadline tm)%Z then x else y) = y).
  { intros A x y. by rewrite (proj2 (Z.ltb_ge _ _) Hdue). }
  repeat apply conj.
  - done.
  - intros Hempty.
    assert (Heq : timerFire W now pool p
      = ({| connections := delete (sessionKey conn) (connections pool);
            mutex := false;
            heap := <[p := withTimer (Close conn) None]> (heap pool);
            nextPtr := nextPtr pool;
            parked := parked pool |},
         [EvLock; EvCloseActions p; EvCloseGrpc (grpcClient conn); EvUnlock])).
    { unfold timerFire. rewrite Hp, Htm, Hm, Hfire.
      rewrite decide_True by done. by rewrite Hkey. }
    split; [done |]. rewrite Heq. simpl. intros k Hk.
    apply lookup_delete_Some in Hk as [Hne Hk].
    destruct (inv_installed _ _ Hinv k p Hk) as (c & Hc & _ & Hck).
    congruence.
  - intros Hbusy.
    assert (Heq : timerFire W now pool p
      = (withHeap pool
           (<[p := withTimer conn (Some (mkTimer (now + LNCD_TIMEOUT W)
                                                 (sessionKey conn)))]> (heap pool)),
         [EvLock; EvUnlock])).
    { unfold timerFire. rewrite Hp, Htm, Hm, Hfire.
      rewrite decide_False by done. by rewrite Hkey. }
    split; [done |]. by rewrite Heq.
  - intros l Hl.
    assert (Hbefore : timerOf pool p = Some tm).
    { unfold timerOf. by rewrite Hp. }
    rewrite <- Hbefore.
    destruct l as [io now' info req | now' q | q]; simpl.
    + apply attempt_timer. by apply (inv_alloc _ _ Hinv p conn).
    + apply timerFire_other. intros ->. by apply (Hl now').
    + apply receive_timer.
  - intros io now' info req pool' evs Hk Hattempt.
    by apply (attempt_creates_timer W io now' pool pool' info req evs).
Qed.

Lemma idle_timer_firing_witness :
  connections Demo.poolQueued !! sessionKey Demo.queued = Some 0
  /\ timerOf (timerFire (Demo.world 1) (300 * second) Demo.poolQueued 0).1 0
     = Some (mkTimer (600 * second) (sessionKey Demo.queued)).
Proof.
  assert (Hinv : poolInvariant 1 Demo.poolQueued).
  { constructor; unfold Demo.poolQueued; simpl.
    - vm_compute. discriminate.
    - intros k p Hk. apply lookup_singleton_Some in Hk as [<- <-].
      exists Demo.queued. by rewrite lookup_singleton_eq.
    - intros p c Hp. apply lookup_singleton_Some in Hp as [<- <-]. intros _.
      apply lookup_singleton_eq.
    - intros p c t Hp. apply lookup_singleton_Some in Hp as [<- <-].
      by intros [= <-].
    - intros p c Hp. apply lookup_singleton_Some in Hp as [<- <-]. simpl. lia. }
  pose proof (idle_timer_firing (Demo.world 1) (300 * second) Demo.poolQueued 0
                Demo.queued (mkTimer (300 * second) (descriptorKey Demo.alice))
                Hinv eq_refl (lookup_singleton_eq _ _) eq_refl
                ltac:(discriminate)) as (Hin & _ & Hbusy & _).
  split; [exact Hin |].
  destruct (Hbusy ltac:(discriminate)) as [Heq _].
  rewrite Heq. unfold timerOf. simpl. by rewrite lookup_insert_eq.
Defined.

(** * Further properties *)

(** ** Session construction *)

Lemma hex_EncodeToString_nonempty (bs : list byte) :
  bs <> [] -> hex_EncodeToString bs <> EmptyString.
Proof. by destruct bs. Qed.

Lemma NewConnection_inversion (W : World) (io : Oracle W) (info : ConnectionInfo)
      (conn : Connection) :
  NewConnection W io info = inr conn ->
  exists localPriv remotePub,
    parseKeys W io (LocalKey info) (RemoteKey info) = inr (localPriv, remotePub)
    /\ LocalKey (connInfo conn) = hex_EncodeToString (Serialize W localPriv).
Proof.
  unfold NewConnection.
  destruct (parseKeys W io _ _) as [err | [localPriv remotePub]]; [done |].
  destruct (NewClientWebsocketConn io _ _ _ _) as [err | d]; [done |].
  destruct (NewPermissionManager W _) as [err | pm]; [done |].
  intros [= <-]. exists localPriv, remotePub. split; [done |]. simpl.
  by destruct (peerKey d), (authMacaroon d).
Qed.

(** X1. The [LocalKey] a constructed session reports is the hex text of the
    key it used: it decodes to that key's serialization, and handing it back
    as the local key of a later descriptor (with no remote key) parses to the
    same bytes whatever the random source would have produced, so no new
    key is minted. *)
Theorem NewConnection_reports_key (W : World) (io : Oracle W)
        (info : ConnectionInfo) (conn : Connection) :
  NewConnection W io info = inr conn ->
  exists localPriv remotePub,
    parseKeys W io (LocalKey info) (RemoteKey info) = inr (localPriv, remotePub)
    /\ hex_DecodeString (LocalKey (connInfo conn)) = inr (Serialize W localPriv)
    /\ (Serialize W localPriv <> [] ->
        forall io',
          parseKeys W io' (LocalKey (connInfo conn)) EmptyString
            = inr (PrivKeyFromBytes W (Serialize W localPriv), None)).
Proof.
  intros Hnew.
  destruct (NewConnection_inversion W io info conn Hnew)
    as (localPriv & remotePub & Hparse & Hkey).
  exists localPriv, remotePub. rewrite Hkey.
  repeat apply conj; [done | apply hex_DecodeString_EncodeToString |].
  intros Hne io'. unfold parseKeys.
  rewrite decide_False
    by (intros [H _]; by apply (hex_EncodeToString_nonempty _ Hne)).
  rewrite decide_True by done.
  by rewrite hex_DecodeString_EncodeToString.
Qed.

(** X2. A descriptor with a malformed hex key is refused by session
    construction before anything outside is consulted: the result is an
    error, and it is the same for every outcome of the random source and of
    the transport. *)
Theorem NewConnection_rejects_bad_hex (W : World) (info : ConnectionInfo) :
  isError (hex_DecodeString (LocalKey info))
  \/ isError (hex_DecodeString (RemoteKey info)) ->
  forall io io' : Oracle W,
    isError (NewConnection W io info)
    /\ NewConnection W io info = NewConnection W io' info.
Proof.
  intros Hbad.
  assert (Hparse : forall io : Oracle W,
    exists err, parseKeys W io (LocalKey info) (RemoteKey info) = inl err
                /\ (isError (hex_DecodeString (LocalKey info)) ->
                    hex_DecodeString (LocalKey info) = inl err)
                /\ (~ isError (hex_DecodeString (LocalKey info)) ->
                    hex_DecodeString (RemoteKey info) = inl err)).
  { intros io. unfold parseKeys.
    destruct Hbad as [Hl | Hr].
    - pose proof (isError_nonempty _ Hl) as Hne.
      rewrite decide_False by tauto.
      destruct (hex_DecodeString (LocalKey info)) as [err |] eqn:Hdec; [| done].
      exists err. by case_decide.
    - pose proof (isError_nonempty _ Hr) as Hne.
      rewrite decide_False by tauto. rewrite decide_False by done.
      destruct (hex_DecodeString (LocalKey info)) as [err | lb] eqn:Hdec.
      + exists err. done.
      + destruct (hex_DecodeString (RemoteKey info)) as [err |] eqn:Hdec'; [| done].
        exists err. done. }
  intros io io'.
  destruct (Hparse io) as (err & He & Hl & Hr).
  destruct (Hparse io') as (err' & He' & Hl' & Hr').
  assert (err = err') as <-.
  { destruct (hex_DecodeString (LocalKey info)) as [e |] eqn:Hdec.
    - specialize (Hl I). specialize (Hl' I). congruence.
    - specialize (Hr ltac:(tauto)). specialize (Hr' ltac:(tauto)). congruence. }
  unfold NewConnection. rewrite He, He'. done.
Qed.

(** ** Dispatch *)

Lemma callbackCount_doneCallbacks (conn : Connection) (req : Action)
      (calls : list (error + string)) :
  callbackCount req (map (doneCallback conn req) calls) = length calls.
Proof.
  induction calls as [| r calls IH]; [done |]. simpl. rewrite IH.
  destruct r; simpl; by rewrite bool_decide_eq_true_2.
Qed.

(** X3. One iteration of the dispatch loop invokes exactly one callback of a
    [checkPerms] action, whatever the payload and even if the registry has an
    entry under that name, which is never run; for a registered method it
    runs the invoker once and turns each of the invoker's [done] calls into
    one callback, an error into [onError] and a result into [onResponse] with
    the session's descriptor. *)
Theorem dispatch_callbacks (W : World) (conn : Connection) (req : Action) :
  (method req = "checkPerms" ->
   callbackCount req (dispatch W conn req) = 1
   /\ forall reg,
        dispatch W (mkConnection (connInfo conn) (actions conn) (actionsClosed conn)
                      (grpcClient conn) reg (timeoutTimer conn) (perms conn)) req
          = dispatch W conn req)
  /\ (forall methodFunc,
        method req <> "checkPerms" ->
        registry conn !! method req = Some methodFunc ->
        dispatch W conn req
          = EvInvoke (method req) (payload req)
              :: map (doneCallback conn req) (methodFunc (payload req))
        /\ callbackCount req (dispatch W conn req)
           = length (methodFunc (payload req))).
Proof.
  split.
  - intros Hm. split.
    + rewrite (dispatch_checkPerms W conn req Hm).
      destruct (json_Unmarshal_strings W (payload req)); simpl;
        by rewrite bool_decide_eq_true_2.
    + intros reg. unfold dispatch. by rewrite !decide_True by done.
  - intros methodFunc Hm Hreg.
    assert (Hd : dispatch W conn req
      = EvInvoke (method req) (payload req)
          :: map (doneCallback conn req) (methodFunc (payload req))).
    { unfold dispatch. rewrite decide_False by done. by rewrite Hreg. }
    split; [done |]. rewrite Hd. simpl. apply callbackCount_doneCallbacks.
Qed.

Lemma NewConnection_reports_key_witness :
  exists conn,
    NewConnection (Demo.world 210) (Demo.io 210) Demo.alice = inr conn
    /\ hex_DecodeString (LocalKey (connInfo conn)) = inr (replicate 32 x2a).
Proof.
  destruct (NewConnection (Demo.world 210) (Demo.io 210) Demo.alice)
    as [err | conn] eqn:Hnew.
  - vm_compute in Hnew. discriminate Hnew.
  - exists conn. split; [reflexivity |].
    destruct (NewConnection_reports_key (Demo.world 210) (Demo.io 210) Demo.alice
                conn Hnew) as (localPriv & remotePub & Hparse & Hdec & _).
    vm_compute in Hparse. injection Hparse as <- <-. exact Hdec.
Defined.

Lemma NewConnection_rejects_bad_hex_witness :
  isError (NewConnection (Demo.world 210) (Demo.io 210) Demo.badKey).
Proof.
  exact (proj1 (NewConnection_rejects_bad_hex (Demo.world 210) Demo.badKey
                  (or_introl I) (Demo.io 210) (Demo.io 210))).
Defined.

(** ** Channels and the mutex *)

Lemma NewConnectionPool_queueInvariant : queueInvariant NewConnectionPool.
Proof.
  constructor; simpl.
  - intros p conn H. by rewrite lookup_empty in H.
  - done.
Qed.

Lemma send_queue (pool : ConnectionPool) (p : option nat) (req : Action) :
  (forall q conn, heap pool !! q = Some conn -> length (actions conn) <= 1) ->
  parked pool = None ->
  mutex (send pool p req).1.1 = mutex pool
  /\ (forall q conn, heap (send pool p req).1.1 !! q = Some conn ->
        length (actions conn) <= 1)
  /\ match (send pool p req).2 with
     | ParkedOnSend =>
         exists q conn, parked (send pool p req).1.1 = Some (q, req)
                        /\ heap (send pool p req).1.1 !! q = Some conn
                        /\ live conn /\ length (actions conn) = 1
     | _ => parked (send pool p req).1.1 = None
     end.
Proof.
  intros Hcap Hfree. unfold send.
  destruct (p ≫= _) as [[q connection] |] eqn:Htarget; [| done].
  apply send_target in Htarget as [_ Hq].
  destruct (actionsClosed connection) eqn:Hclosed; [done |].
  case_decide as Hroom; simpl.
  - repeat apply conj; [done | | done].
    intros q' conn Hq'. apply lookup_insert_Some in Hq' as [[<- <-] | [Hne Hq']].
    + simpl. rewrite length_app. simpl. lia.
    + by apply (Hcap q').
  - repeat apply conj; [done | done |].
    exists q, connection. pose proof (Hcap q connection Hq).
    repeat apply conj; [done | done | done | lia].
Qed.

Lemma try_queue (W : World) (io : Oracle W) (now : Z) (pool : ConnectionPool)
      (info : ConnectionInfo) (req : Action) :
  (forall q conn, heap pool !! q = Some conn -> length (actions conn) <= 1) ->
  parked pool = None ->
  mutex (try W io now pool info req).1.1 = mutex pool
  /\ (forall q conn, heap (try W io now pool info req).1.1 !! q = Some conn ->
        length (actions conn) <= 1)
  /\ match (try W io now pool info req).2 with
     | ParkedOnSend =>
         exists q conn, parked (try W io now pool info req).1.1 = Some (q, req)
                        /\ heap (try W io now pool info req).1.1 !! q = Some conn
                        /\ live conn /\ length (actions conn) = 1
     | _ => parked (try W io now pool info req).1.1 = None
     end.
Proof.
  intros Hcap Hfree. unfold try.
  destruct (connections pool !! _) as [p |]; [by apply send_queue |].
  destruct (_ <=? _)%Z; [done |].
  destruct (NewConnection W io info) as [err | connection] eqn:Hnew; [done |].
  apply NewConnection_fresh in Hnew as (_ & _ & _ & Hacts).
  match goal with |- context [send ?P ?Q req] =>
    assert (Hcap' : forall q conn, heap P !! q = Some conn -> length (actions conn) <= 1);
      [| pose proof (send_queue P Q req Hcap' Hfree) as Hsend;
         destruct (send P Q req) as [[pool' evs] r]; exact Hsend]
  end.
  simpl. intros q conn Hq. apply lookup_insert_Some in Hq as [[<- <-] | [Hne Hq]].
  - simpl. rewrite Hacts. simpl. lia.
  - by apply (Hcap q).
Qed.

Lemma queue_free (pool : ConnectionPool) :
  queueInvariant pool -> mutex pool = false -> parked pool = None.
Proof.
  intros [_ Hparked] Hm. destruct (parked pool) as [[q waiting] |] eqn:Hp; [| done].
  destruct (Hparked q waiting eq_refl) as [Hlocked _]. congruence.
Qed.

Lemma attempt_queueInvariant (W : World) (io : Oracle W) (now : Z)
      (pool : ConnectionPool) (info : ConnectionInfo) (req : Action) :
  queueInvariant pool -> queueInvariant (attempt W io now pool info req).1.1.
Proof.
  intros Hinv. unfold attempt. destruct (mutex pool) eqn:Hm; [done |].
  pose proof (queue_free pool Hinv Hm) as Hfree.
  destruct (try_queue W io now (withMutex pool true) info req
              (q_capacity _ Hinv) Hfree) as (Hmutex & Hcap & Hpark).
  destruct (try W io now (withMutex pool true) info req) as [[pool' evs] r].
  simpl in *.
  destruct r; simpl; constructor; simpl; try done.
  - rewrite Hpark. done.
  - rewrite Hpark. done.
  - destruct Hpark as (q & conn & Hp & Hq & Hl & Hlen).
    intros q' waiting Heq. rewrite Hp in Heq. injection Heq as <- <-.
    split; [done |]. by exists conn.
  - rewrite Hpark. done.
Qed.

Lemma timerFire_queueInvariant (W : World) (now : Z) (pool : ConnectionPool) (p : nat) :
  queueInvariant pool -> queueInvariant (timerFire W now pool p).1.
Proof.
  intros Hinv. unfold timerFire.
  destruct (heap pool !! p) as [connection |] eqn:Hp; [| done].
  destruct (timeoutTimer connection) as [tm |]; [| done].
  destruct (mutex pool) eqn:Hm; [done |].
  pose proof (queue_free pool Hinv Hm) as Hfree.
  pose proof (q_capacity _ Hinv p connection Hp) as Hlen.
  destruct (now <? deadline tm)%Z; [done |].
  case_decide; constructor; simpl; try (by rewrite Hfree);
    intros q conn Hq; apply lookup_insert_Some in Hq as [[<- <-] | [Hne Hq]];
    try done; by apply (q_capacity _ Hinv q).
Qed.

Lemma receive_queueInvariant (W : World) (pool : ConnectionPool) (p : nat) :
  queueInvariant pool -> queueInvariant (receive W pool p).1.
Proof.
  intros Hinv. unfold receive.
  destruct (heap pool !! p) as [connection |] eqn:Hp; [| done].
  destruct (actions connection) as [| req rest] eqn:Hacts; [done |].
  pose proof (q_capacity _ Hinv p connection Hp) as Hlen.
  rewrite Hacts in Hlen. simpl in Hlen.
  assert (rest = []) as -> by (destruct rest; [done | simpl in Hlen; lia]).
  assert (Hother : forall q conn,
    <[p := withActions connection []]> (heap pool) !! q = Some conn ->
    length (actions conn) <= 1).
  { intros q conn Hq. apply lookup_insert_Some in Hq as [[<- <-] | [Hne Hq]].
    - simpl. lia.
    - by apply (q_capacity _ Hinv q). }
  destruct (parked pool) as [[q waiting] |] eqn:Hparked.
  - destruct (q_parked _ Hinv q waiting Hparked) as (Hm & conn & Hq & Hl & Hfull).
    case_decide as Heq; constructor; simpl; try done.
    + intros q' conn' Hq'.
      apply lookup_insert_Some in Hq' as [[<- <-] | [Hne Hq']].
      * simpl. lia.
      * by apply (q_capacity _ Hinv q').
    + intros q' waiting' Hp'. rewrite Hparked in Hp'. injection Hp' as <- <-.
      split; [done |]. exists conn. by rewrite lookup_insert_ne.
  - constructor; simpl; [done | by rewrite Hparked].
Qed.

Lemma step_queueInvariant (W : World) (pool : ConnectionPool) (l : label W) :
  queueInvariant pool -> queueInvariant (step W pool l).1.
Proof.
  intros Hinv. destruct l as [io now info req | now p | p]; simpl.
  - by apply attempt_queueInvariant.
  - by apply timerFire_queueInvariant.
  - by apply receive_queueInvariant.
Qed.

(** X4. Along every interleaving of admission passes, timer firings and
    receives, each session's channel holds at most one action, and a sender
    waits on a full channel only while holding the pool mutex, on a session
    that is still open. *)
Theorem channel_capacity_kept (W : World) (ls : list (label W)) (pool : ConnectionPool) :
  queueInvariant pool ->
  queueInvariant (run W pool ls).1
  /\ forall p conn, heap (run W pool ls).1 !! p = Some conn ->
       length (actions conn) <= 1.
Proof.
  intros Hinv.
  assert (Hrun : queueInvariant (run W pool ls).1).
  { revert pool Hinv. induction ls as [| l ls IH]; intros pool Hinv; [done |].
    simpl. pose proof (step_queueInvariant W pool l Hinv) as Hstep.
    destruct (step W pool l) as [pool1 evs1].
    specialize (IH pool1 Hstep). by destruct (run W pool1 ls) as [pool2 evs2]. }
  split; [done | apply (q_capacity _ Hrun)].
Qed.

Lemma channel_capacity_kept_witness :
  queueInvariant (run (Demo.world 1) NewConnectionPool Demo.schedule).1.
Proof.
  exact (proj1 (channel_capacity_kept (Demo.world 1) Demo.schedule NewConnectionPool
                  NewConnectionPool_queueInvariant)).
Defined.

(** ** Admission, case by case *)

Lemma withMutex_withHeap_release (pool : ConnectionPool) (h : gmap nat Connection) :
  mutex pool = false ->
  withMutex (withHeap (withMutex pool true) h) false = withHeap pool h.
Proof. destruct pool; simpl; by intros ->. Qed.

(** X5. A request for a key the pool already holds is handed to that session
    without any session construction and without looking at the cap: when
    the session's channel is empty, [execute] returns after one pass, having
    only appended the action to the channel. *)
Theorem execute_reuses_session (W : World) (io : Oracle W) (now : Z)
        (pool : ConnectionPool) (info : ConnectionInfo) (req : Action)
        (p : nat) (conn : Connection) (n : nat) :
  mutex pool = false ->
  connections pool !! descriptorKey info = Some p ->
  heap pool !! p = Some conn ->
  live conn ->
  actions conn = [] ->
  execute W (S n) io now pool info req
    = (withHeap pool (<[p := withActions conn [req]]> (heap pool)),
       [EvLock; EvSend p req; EvUnlock],
       Finished (Returned false)).
Proof.
  intros Hm Hk Hp Hlive Hacts. simpl. unfold attempt, try. rewrite Hm.
  change (connections (withMutex pool true)) with (connections pool).
  fold (descriptorKey info). rewrite Hk. unfold send. simpl.
  rewrite Hp. simpl. rewrite Hlive, Hacts. simpl.
  by rewrite (withMutex_withHeap_release pool _ Hm).
Qed.

Lemma execute_reuses_session_witness :
  (execute (Demo.world 1) 1 (Demo.io 1) 0 Demo.poolIdle Demo.alice
           (Demo.getInfoAction 9)).1.2
    = [EvLock; EvSend 0 (Demo.getInfoAction 9); EvUnlock].
Proof.
  by rewrite (execute_reuses_session (Demo.world 1) (Demo.io 1) 0%Z Demo.poolIdle
                Demo.alice (Demo.getInfoAction 9) 0 (withActions Demo.queued []) 0
                eq_refl (lookup_singleton_eq _ _) (lookup_singleton_eq _ _)
                eq_refl eq_refl).
Defined.

(** X6. A request for a key the pool lacks, in a pool below its cap and with
    a session construction that succeeds, returns after one pass: the new
    session is stored under the descriptor's key at a fresh address, its
    idle timer is armed [LNCD_TIMEOUT] after the pass, its dispatch loop is
    started and the action is the only one in its channel. *)
Theorem execute_admits_new_session (W : World) (io : Oracle W) (now : Z)
        (pool : ConnectionPool) (info : ConnectionInfo) (req : Action)
        (conn : Connection) (n : nat) :
  mutex pool = false ->
  connections pool !! descriptorKey info = None ->
  (Z.of_nat (size (connections pool)) < LNCD_LIMIT_ACTIVE_CONNECTIONS W)%Z ->
  NewConnection W io info = inr conn ->
  execute W (S n) io now pool info req
    = ({| connections := <[descriptorKey info := nextPtr pool]> (connections pool);
          mutex := false;
          heap := <[nextPtr pool :=
                      withActions
                        (withTimer conn (Some (mkTimer (now + LNCD_TIMEOUT W)
                                                       (descriptorKey info))))
                        [req]]> (heap pool);
          nextPtr := S (nextPtr pool);
          parked := parked pool |},
       [EvLock; EvNewConnection info; EvGoRunLoop (nextPtr pool);
        EvSend (nextPtr pool) req; EvUnlock],
       Finished (Returned false)).
Proof.
  intros Hm Hk Hcap Hnew. simpl. unfold attempt, try. rewrite Hm.
  change (connections (withMutex pool true)) with (connections pool).
  fold (descriptorKey info). rewrite Hk.
  rewrite (proj2 (Z.leb_gt _ _) Hcap). rewrite Hnew.
  apply NewConnection_fresh in Hnew as (_ & Hlive & _ & Hacts).
  unfold send. simpl. rewrite lookup_insert_eq. simpl.
  rewrite Hlive, Hacts. simpl. by rewrite insert_insert_eq.
Qed.

Lemma execute_admits_new_session_witness :
  (execute (Demo.world 1) 1 (Demo.io 1) 0 NewConnectionPool Demo.alice
           (Demo.getInfoAction 1)).1.2
    = [EvLock; EvNewConnection Demo.alice; EvGoRunLoop 0;
       EvSend 0 (Demo.getInfoAction 1); EvUnlock].
Proof.
  destruct (NewConnection (Demo.world 1) (Demo.io 1) Demo.alice)
    as [err | conn] eqn:Hnew.
  - vm_compute in Hnew. discriminate Hnew.
  - by rewrite (execute_admits_new_session (Demo.world 1) (Demo.io 1) 0%Z
                  NewConnectionPool Demo.alice (Demo.getInfoAction 1) conn 0
                  eq_refl eq_refl eq_refl Hnew).
Defined.

Lemma timerFire_locked (W : World) (now : Z) (pool : ConnectionPool) (q : nat) :
  mutex pool = true -> timerFire W now pool q = (pool, []).
Proof.
  intros Hm. unfold timerFire.
  destruct (heap pool !! q) as [connection |]; [| done].
  destruct (timeoutTimer connection); [| done]. by rewrite Hm.
Qed.

(** X7. A request for a session whose channel is full waits inside the send
    with the pool mutex held: until that session's dispatch loop receives,
    every other admission pass waits for the mutex and no idle timer can
    run; the receive lets the send complete, after which the mutex is
    released and the channel holds the waiting action. *)
Theorem full_channel_blocks_pool (W : World) (io : Oracle W) (now : Z)
        (pool : ConnectionPool) (info : ConnectionInfo) (req first : Action)
        (p : nat) (conn : Connection) :
  mutex pool = false ->
  connections pool !! descriptorKey info = Some p ->
  heap pool !! p = Some conn ->
  live conn ->
  actions conn = [first] ->
  attempt W io now pool info req
    = (withParked (withMutex pool true) (Some (p, req)), [EvLock], ParkedOnSend)
  /\ (forall io' now' info' req',
        attempt W io' now' (withParked (withMutex pool true) (Some (p, req))) info' req'
          = (withParked (withMutex pool true) (Some (p, req)), [], ParkedOnLock))
  /\ (forall now' q,
        timerFire W now' (withParked (withMutex pool true) (Some (p, req))) q
          = (withParked (withMutex pool true) (Some (p, req)), []))
  /\ receive W (withParked (withMutex pool true) (Some (p, req))) p
     = ({| connections := connections pool;
           mutex := false;
           heap := <[p := withActions conn [req]]> (heap pool);
           nextPtr := nextPtr pool;
           parked := None |},
        dispatch W conn first ++ [EvSend p req; EvUnlock]).
Proof.
  intros Hm Hk Hp Hlive Hacts. repeat apply conj.
  - unfold attempt, try. rewrite Hm.
    change (connections (withMutex pool true)) with (connections pool).
    fold (descriptorKey info). rewrite Hk. unfold send. simpl.
    rewrite Hp. simpl. rewrite Hlive, Hacts. done.
  - done.
  - intros now' q. by apply timerFire_locked.
  - unfold receive. simpl. rewrite Hp, Hacts. by rewrite decide_True.
Qed.

Lemma full_channel_blocks_pool_witness :
  attempt (Demo.world 1) (Demo.io 1) 0 Demo.poolQueued Demo.alice (Demo.getInfoAction 9)
    = (withParked (withMutex Demo.poolQueued true) (Some (0, Demo.getInfoAction 9)),
       [EvLock], ParkedOnSend).
Proof.
  exact (proj1 (full_channel_blocks_pool (Demo.world 1) (Demo.io 1) 0%Z
                  Demo.poolQueued Demo.alice (Demo.getInfoAction 9)
                  (Demo.getInfoAction 1) 0 Demo.queued
                  eq_refl (lookup_singleton_eq _ _) (lookup_singleton_eq _ _)
                  eq_refl eq_refl)).
Defined.

(** ** What the pool never does *)

Lemma send_installed_outcome (pool : ConnectionPool) (p : nat) (conn : Connection)
      (req : Action) :
  heap pool !! p = Some conn -> live conn ->
  (send pool (Some p) req).2 <> Panicked.
Proof.
  intros Hp Hlive. unfold send. simpl. rewrite Hp. simpl. rewrite Hlive.
  by case_decide.
Qed.

(** X8. In a pool that satisfies the pool invariants, the only way a pass of
    [execute] panics is a failed session construction for a key the pool
    lacks, below the cap: no pass ever sends on a closed channel or follows a
    map entry to a missing session. *)
Theorem attempt_panics_only_on_construction_failure (W : World) (io : Oracle W)
        (now : Z) (pool : ConnectionPool) (info : ConnectionInfo) (req : Action) :
  poolInvariant (LNCD_LIMIT_ACTIVE_CONNECTIONS W) pool ->
  (attempt W io now pool info req).2 = Panicked ->
  connections pool !! descriptorKey info = None
  /\ (Z.of_nat (size (connections pool)) < LNCD_LIMIT_ACTIVE_CONNECTIONS W)%Z
  /\ isError (NewConnection W io info).
Proof.
  intros Hinv. unfold attempt. destruct (mutex pool); [done |].
  unfold try. change (connections (withMutex pool true)) with (connections pool).
  fold (descriptorKey info).
  destruct (connections pool !! descriptorKey info) as [p |] eqn:Hk.
  { destruct (inv_installed _ _ Hinv _ p Hk) as (conn & Hp & Hlive & _).
    pose proof (send_installed_outcome (withMutex pool true) p conn req Hp Hlive) as Hs.
    destruct (send (withMutex pool true) (Some p) req) as [[pool' evs] r].
    simpl in *. by destruct r. }
  destruct (_ <=? _)%Z eqn:Hcap; [done |].
  apply Z.leb_gt in Hcap.
  destruct (NewConnection W io info) as [err | connection] eqn:Hnew; [done |].
  apply NewConnection_fresh in Hnew as (_ & Hlive & _ & _).
  match goal with |- context [send ?P (Some ?Q) req] =>
    pose proof (send_installed_outcome P Q
                  (withTimer connection
                     (Some (mkTimer (now + LNCD_TIMEOUT W) (descriptorKey info))))
                  req (lookup_insert_eq _ _ _) Hlive) as Hs;
      destruct (send P (Some Q) req) as [[pool' evs] r]
  end.
  simpl in *. by destruct r.
Qed.

Lemma attempt_panics_only_on_construction_failure_witness :
  isError (NewConnection (Demo.world 210) (Demo.io 210) Demo.badKey).
Proof.
  exact (proj2 (proj2 (attempt_panics_only_on_construction_failure
                         (Demo.world 210) (Demo.io 210) 0%Z NewConnectionPool
                         Demo.badKey (Demo.getInfoAction 1)
                         (NewConnectionPool_invariant 210 ltac:(discriminate))
                         eq_refl))).
Defined.

(** X9. A pool whose mutex is left locked with no sender waiting (as after
    the panic of a pass) stays as it is for ever: whatever is scheduled, the
    mutex is never released, the sessions map never changes, and every
    later admission pass waits for the mutex without doing anything. *)
Theorem held_mutex_freezes_pool (W : World) (ls : list (label W))
        (pool : ConnectionPool) :
  mutex pool = true ->
  parked pool = None ->
  mutex (run W pool ls).1 = true
  /\ parked (run W pool ls).1 = None
  /\ connections (run W pool ls).1 = connections pool
  /\ forall io now info req,
       attempt W io now (run W pool ls).1 info req
         = ((run W pool ls).1, [], ParkedOnLock).
Proof.
  intros Hm Hfree.
  assert (Hrun : mutex (run W pool ls).1 = true
                 /\ parked (run W pool ls).1 = None
                 /\ connections (run W pool ls).1 = connections pool).
  { revert pool Hm Hfree. induction ls as [| l ls IH]; intros pool Hm Hfree; [done |].
    simpl.
    assert (Hstep : mutex (step W pool l).1 = true
                    /\ parked (step W pool l).1 = None
                    /\ connections (step W pool l).1 = connections pool).
    { destruct l as [io now info req | now p | p]; simpl.
      - unfold attempt. by rewrite Hm.
      - by rewrite (timerFire_locked W now pool p Hm).
      - unfold receive. destruct (heap pool !! p) as [connection |]; [| done].
        destruct (actions connection); [done |]. by rewrite Hfree. }
    destruct (step W pool l) as [pool1 evs1]. simpl in Hstep.
    destruct Hstep as (Hm1 & Hfree1 & Hc1).
    specialize (IH pool1 Hm1 Hfree1).
    destruct (run W pool1 ls) as [pool2 evs2]. simpl in *.
    by rewrite <- Hc1. }
  destruct Hrun as (Hm' & Hfree' & Hc').
  repeat apply conj; try done.
  intros io now info req. unfold attempt. by rewrite Hm'.
Qed.

Lemma held_mutex_freezes_pool_witness :
  connections (run (Demo.world 1) (withMutex NewConnectionPool true) Demo.schedule).1
    = ∅.
Proof.
  exact (proj1 (proj2 (proj2 (held_mutex_freezes_pool (Demo.world 1) Demo.schedule
                                (withMutex NewConnectionPool true) eq_refl eq_refl)))).
Defined.

(** X10. With a cap of zero or less, nothing is ever admitted: from the
    empty pool every schedule leaves the pool empty, and every admission
    pass reports "too many active connections" and asks for a retry. *)
Theorem nonpositive_cap_admits_nothing (W : World) (ls : list (label W)) :
  (LNCD_LIMIT_ACTIVE_CONNECTIONS W <= 0)%Z ->
  (run W NewConnectionPool ls).1 = NewConnectionPool
  /\ forall io now info req,
       attempt W io now (run W NewConnectionPool ls).1 info req
         = (NewConnectionPool,
            [EvLock; EvOnError req ErrTooManyConnections; EvUnlock],
            Returned true).
Proof.
  intros Hcap.
  assert (Hattempt : forall io now info req,
    attempt W io now NewConnectionPool info req
      = (NewConnectionPool,
         [EvLock; EvOnError req ErrTooManyConnections; EvUnlock], Returned true)).
  { intros io now info req. unfold attempt, try.
    change (mutex NewConnectionPool) with false.
    change (connections (withMutex NewConnectionPool true))
      with (∅ : gmap ConnectionKey nat).
    rewrite lookup_empty, map_size_empty.
    change (Z.of_nat 0) with 0%Z.
    by rewrite (proj2 (Z.leb_le _ _) Hcap). }
  assert (Hrun : (run W NewConnectionPool ls).1 = NewConnectionPool).
  { induction ls as [| l ls IH]; [done |]. simpl.
    assert (Hstep : (step W NewConnectionPool l).1 = NewConnectionPool).
    { destruct l as [io now info req | now p | p]; simpl.
      - by rewrite Hattempt.
      - unfold timerFire. simpl. by rewrite lookup_empty.
      - unfold receive. simpl. by rewrite lookup_empty. }
    destruct (step W NewConnectionPool l) as [pool1 evs1]. simpl in Hstep.
    subst pool1. by destruct (run W NewConnectionPool ls) as [pool2 evs2]. }
  split; [done |]. rewrite Hrun. apply Hattempt.
Qed.

Lemma nonpositive_cap_admits_nothing_witness :
  (run (Demo.world 0) NewConnectionPool
       [Attempt (Demo.io 0) 0 Demo.alice (Demo.getInfoAction 1); Receive 0]).1
    = NewConnectionPool.
Proof.
  exact (proj1 (nonpositive_cap_admits_nothing (Demo.world 0)
                  [Attempt (Demo.io 0) 0 Demo.alice (Demo.getInfoAction 1); Receive 0]
                  ltac:(discriminate))).
Defined.

Lemma send_connections (pool : ConnectionPool) (p : option nat) (req : Action) :
  connections (send pool p req).1.1 = connections pool.
Proof.
  unfold send. destruct (p ≫= _) as [[q connection] |]; [| done].
  destruct (actionsClosed connection); [done |]. by case_decide.
Qed.

Lemma attempt_keeps_entries (W : World) (io : Oracle W) (now : Z)
      (pool : ConnectionPool) (info : ConnectionInfo) (req : Action)
      (k : ConnectionKey) (p : nat) :
  connections pool !! k = Some p ->
  connections (attempt W io now pool info req).1.1 !! k = Some p.
Proof.
  intros Hk. unfold attempt. destruct (mutex pool); [done |].
  assert (Htry : connections (try W io now (withMutex pool true) info req).1.1 !! k
                 = Some p).
  { unfold try. change (connections (withMutex pool true)) with (connections pool).
    fold (descriptorKey info).
    destruct (connections pool !! descriptorKey info) as [q |] eqn:Hq.
    { by rewrite send_connections. }
    destruct (_ <=? _)%Z; [done |].
    destruct (NewConnection W io info) as [err | connection]; [done |].
    match goal with |- context [send ?P ?Q req] =>
      pose proof (send_connections P Q req) as Hs;
        destruct (send P Q req) as [[pool' evs] r]
    end.
    simpl in *. rewrite Hs. rewrite lookup_insert_ne; [done |].
    intros <-. congruence. }
  destruct (try W io now (withMutex pool true) info req) as [[pool' evs] r].
  by destruct r.
Qed.

(** X11. A session leaves the sessions map only through the firing of its
    own idle timer: admission passes (for any descriptor, admitted, rejected
    or panicking), receives and the timers of other sessions leave the entry
    of every installed session in place. *)
Theorem session_leaves_only_by_own_timer (W : World) (pool : ConnectionPool)
        (l : label W) (k : ConnectionKey) (p : nat) :
  poolInvariant (LNCD_LIMIT_ACTIVE_CONNECTIONS W) pool ->
  connections pool !! k = Some p ->
  (forall now, l <> TimerFire now p) ->
  connections (step W pool l).1 !! k = Some p.
Proof.
  intros Hinv Hk Hl. destruct l as [io now info req | now q | q]; simpl.
  - by apply attempt_keeps_entries.
  - assert (Hne : q <> p) by (intros ->; by apply (Hl now)).
    unfold timerFire.
    destruct (heap pool !! q) as [connection |] eqn:Hq; [| done].
    destruct (timeoutTimer connection) as [tm |] eqn:Htm; [| done].
    destruct (mutex pool); [done |].
    destruct (now <? deadline tm)%Z; [done |].
    case_decide; simpl; [| done].
    destruct (inv_timer _ _ Hinv q connection tm Hq Htm) as [Hlive Hkey].
    pose proof (inv_live _ _ Hinv q connection Hq Hlive) as Hin.
    rewrite lookup_delete_ne; [done |]. rewrite Hkey. intros Heq.
    rewrite Heq in Hin. congruence.
  - unfold receive. destruct (heap pool !! q) as [connection |]; [| done].
    destruct (actions connection); [done |].
    destruct (parked pool) as [[q' waiting] |]; [| done].
    by case_decide.
Qed.

Lemma poolQueued_invariant : poolInvariant 1 Demo.poolQueued.
Proof.
  constructor; unfold Demo.poolQueued; simpl.
  - vm_compute. discriminate.
  - intros k p Hk. apply lookup_singleton_Some in Hk as [<- <-].
    exists Demo.queued. by rewrite lookup_singleton_eq.
  - intros p c Hp. apply lookup_singleton_Some in Hp as [<- <-]. intros _.
    apply lookup_singleton_eq.
  - intros p c t Hp. apply lookup_singleton_Some in Hp as [<- <-].
    by intros [= <-].
  - intros p c Hp. apply lookup_singleton_Some in Hp as [<- <-]. simpl. lia.
Qed.

Lemma session_leaves_only_by_own_timer_witness :
  connections (step (Demo.world 1) Demo.poolQueued
                    (Attempt (Demo.io 1) 0 Demo.bob (Demo.getInfoAction 2))).1
    !! descriptorKey Demo.alice = Some 0.
Proof.
  exact (session_leaves_only_by_own_timer (Demo.world 1) Demo.poolQueued
           (Attempt (Demo.io 1) 0 Demo.bob (Demo.getInfoAction 2))
           (descriptorKey Demo.alice) 0 poolQueued_invariant
           (lookup_singleton_eq _ _) ltac:(discriminate)).
Defined.

Lemma send_keeps_closed (pool : ConnectionPool) (q : option nat) (req : Action)
      (p : nat) (conn : Connection) :
  heap pool !! p = Some conn -> actionsClosed conn = true ->
  heap (send pool q req).1.1 !! p = Some conn.
Proof.
  intros Hp Hclosed. unfold send.
  destruct (q ≫= _) as [[q' connection] |] eqn:Htarget; [| done].
  apply send_target in Htarget as [_ Hq].
  destruct (actionsClosed connection) eqn:Hc; [done |].
  case_decide; [| done]. simpl.
  rewrite lookup_insert_ne; [done |]. intros ->. congruence.
Qed.

Lemma attempt_keeps_closed (W : World) (io : Oracle W) (now : Z)
      (pool : ConnectionPool) (info : ConnectionInfo) (req : Action)
      (p : nat) (conn : Connection) :
  p < nextPtr pool ->
  heap pool !! p = Some conn -> actionsClosed conn = true ->
  heap (attempt W io now pool info req).1.1 !! p = Some conn.
Proof.
  intros Halloc Hp Hclosed. unfold attempt. destruct (mutex pool); [done |].
  assert (Htry : heap (try W io now (withMutex pool true) info req).1.1 !! p = Some conn).
  { unfold try. destruct (connections (withMutex pool true) !! _) as [q |].
    { by apply send_keeps_closed. }
    destruct (_ <=? _)%Z; [done |].
    destruct (NewConnection W io info) as [err | connection]; [done |].
    match goal with |- context [send ?P ?Q req] =>
      assert (Hp' : heap P !! p = Some conn)
        by (simpl; rewrite lookup_insert_ne by lia; done);
        pose proof (send_keeps_closed P Q req p conn Hp' Hclosed) as Hs;
        destruct (send P Q req) as [[pool' evs] r]
    end.
    done. }
  destruct (try W io now (withMutex pool true) info req) as [[pool' evs] r].
  by destruct r.
Qed.

(** X12. In a pool that satisfies the pool invariants and the channel
    invariants, a closed session is not reopened or reused by any admission
    pass, timer firing or receive: after the step it is still closed, keeps
    its descriptor, has received no further action (its channel can only
    drain) and no key of the sessions map points to it, so a later request
    for its key goes to a session at another address.  (The loop of [main]
    that closes the sessions still in the map at shutdown is no such
    step.) *)
Theorem closed_session_stays_closed (W : World) (pool : ConnectionPool)
        (l : label W) (p : nat) (conn : Connection) :
  poolInvariant (LNCD_LIMIT_ACTIVE_CONNECTIONS W) pool ->
  queueInvariant pool ->
  heap pool !! p = Some conn ->
  actionsClosed conn = true ->
  exists conn',
    heap (step W pool l).1 !! p = Some conn'
    /\ actionsClosed conn' = true
    /\ connInfo conn' = connInfo conn
    /\ length (actions conn') <= length (actions conn)
    /\ forall k, connections (step W pool l).1 !! k <> Some p.
Proof.
  intros Hinv Hq Hp Hclosed.
  assert (Hheap : exists conn',
    heap (step W pool l).1 !! p = Some conn'
    /\ actionsClosed conn' = true
    /\ connInfo conn' = connInfo conn
    /\ length (actions conn') <= length (actions conn)).
  { destruct l as [io now info req | now q | q]; simpl.
    - exists conn. split; [| done].
      apply attempt_keeps_closed; [by apply (inv_alloc _ _ Hinv p conn) | done ..].
    - unfold timerFire.
      destruct (heap pool !! q) as [connection |] eqn:Hq'; [| by exists conn].
      destruct (timeoutTimer connection) as [tm |] eqn:Htm; [| by exists conn].
      destruct (mutex pool); [by exists conn |].
      destruct (now <? deadline tm)%Z; [by exists conn |].
      assert (Hne : q <> p).
      { intros ->. rewrite Hp in Hq'. injection Hq' as <-.
        destruct (inv_timer _ _ Hinv p conn tm Hp Htm) as [Hlive _].
        unfold live in Hlive. congruence. }
      case_decide; simpl; exists conn; by rewrite lookup_insert_ne.
    - unfold receive.
      destruct (heap pool !! q) as [connection |] eqn:Hq'; [| by exists conn].
      destruct (actions connection) as [| req rest] eqn:Hacts; [by exists conn |].
      destruct (decide (q = p)) as [-> | Hne].
      + rewrite Hp in Hq'. injection Hq' as <-.
        assert (Hdrain : exists conn',
          <[p := withActions conn rest]> (heap pool) !! p = Some conn'
          /\ actionsClosed conn' = true /\ connInfo conn' = connInfo conn
          /\ length (actions conn') <= length (actions conn)).
        { exists (withActions conn rest). rewrite lookup_insert_eq.
          repeat apply conj; try done. rewrite Hacts. simpl. lia. }
        destruct (parked pool) as [[q' waiting] |] eqn:Hparked; [| exact Hdrain].
        case_decide as Heq; [| exact Hdrain]. subst q'.
        destruct (q_parked _ Hq p waiting Hparked) as (_ & c & Hc & Hlive & _).
        rewrite Hp in Hc. injection Hc as <-. unfold live in Hlive. congruence.
      + assert (Hsame : forall acts,
          <[q := withActions connection acts]> (heap pool) !! p = Some conn)
          by (intros acts; by rewrite lookup_insert_ne).
        destruct (parked pool) as [[q' waiting] |]; [case_decide |];
          simpl; exists conn; by rewrite Hsame. }
  destruct Hheap as (conn' & Hp' & Hc' & Hi' & Hl').
  exists conn'. repeat apply conj; try done.
  intros k Hk.
  destruct (inv_installed _ _ (step_invariant W pool l Hinv) k p Hk)
    as (c & Hc & Hlive & _).
  rewrite Hp' in Hc. injection Hc as <-. unfold live in Hlive. congruence.
Qed.

Lemma poolEvicted_invariants :
  poolInvariant 1 Demo.poolEvicted /\ queueInvariant Demo.poolEvicted.
Proof.
  assert (Hidle : poolInvariant 1 Demo.poolIdle).
  { apply (inv_update 1 Demo.poolQueued 0 Demo.queued (withActions Demo.queued [])
             poolQueued_invariant (lookup_singleton_eq _ _) eq_refl eq_refl
             (or_introl eq_refl)). }
  split.
  - by apply timerFire_invariant.
  - apply timerFire_queueInvariant. constructor; simpl.
    + intros p c Hp. apply lookup_singleton_Some in Hp as [<- <-]. simpl. lia.
    + done.
Qed.

Lemma closed_session_stays_closed_witness :
  exists conn',
    heap (step (Demo.world 1) Demo.poolEvicted
               (Attempt (Demo.io 1) (400 * second) Demo.alice (Demo.getInfoAction 3))).1
      !! 0 = Some conn'
    /\ actionsClosed conn' = true
    /\ connInfo conn' = connInfo Demo.queued
    /\ length (actions conn') <= 0
    /\ forall k,
         connections
           (step (Demo.world 1) Demo.poolEvicted
                 (Attempt (Demo.io 1) (400 * second) Demo.alice (Demo.getInfoAction 3))).1
           !! k <> Some 0.
Proof.
  exact (closed_session_stays_closed (Demo.world 1) Demo.poolEvicted
           (Attempt (Demo.io 1) (400 * second) Demo.alice (Demo.getInfoAction 3))
           0 (withTimer (Close (withActions Demo.queued [])) None)
           (proj1 poolEvicted_invariants) (proj2 poolEvicted_invariants)
           (lookup_insert_eq _ _ _) eq_refl).
Defined.

(** ** The authorization data callback *)

Lemma splitColonSpace_nonempty (s : string) : splitColonSpace s <> [].
Proof.
  destruct s as [| c [| c' rest]]; [done | done |].
  change (splitColonSpace (String c (String c' rest)))
    with (if Ascii.eqb c ":" && Ascii.eqb c' " "
          then EmptyString :: splitColonSpace rest
          else match splitColonSpace (String c' rest) with
               | part :: parts => String c part :: parts
               | [] => [String c EmptyString]
               end).
  destruct (Ascii.eqb c ":" && Ascii.eqb c' " "); [done |].
  by destruct (splitColonSpace (String c' rest)).
Qed.

Lemma joinColonSpace_cons (c : ascii) (part : string) (parts : list string) :
  joinColonSpace (String c part :: parts) = String c (joinColonSpace (part :: parts)).
Proof. by destruct parts. Qed.

(** Joining what [strings.Split] returned gives the text back. *)
Lemma joinColonSpace_split (s : string) : joinColonSpace (splitColonSpace s) = s.
Proof.
  assert (H : forall s,
    joinColonSpace (splitColonSpace s) = s
    /\ forall c, joinColonSpace (splitColonSpace (String c s)) = String c s).
  { clear s. induction s as [| c' rest [IH1 IH2]]; [done |].
    split; [apply IH2 |]. intros c.
    change (splitColonSpace (String c (String c' rest)))
      with (if Ascii.eqb c ":" && Ascii.eqb c' " "
            then EmptyString :: splitColonSpace rest
            else match splitColonSpace (String c' rest) with
                 | part :: parts => String c part :: parts
                 | [] => [String c EmptyString]
                 end).
    destruct (Ascii.eqb c ":" && Ascii.eqb c' " ") eqn:Hsep.
    - apply andb_true_iff in Hsep as [Hc Hc'].
      apply Ascii.eqb_eq in Hc, Hc'. subst c c'.
      pose proof (splitColonSpace_nonempty rest) as Hne.
      destruct (splitColonSpace rest) as [| part parts] eqn:Hsplit; [done |].
      change (joinColonSpace (EmptyString :: part :: parts))
        with (": " +:+ joinColonSpace (part :: parts)).
      by rewrite IH1.
    - pose proof (splitColonSpace_nonempty (String c' rest)) as Hne.
      specialize (IH2 c').
      destruct (splitColonSpace (String c' rest)) as [| part parts]; [done |].
      rewrite joinColonSpace_cons. by rewrite IH2. }
  apply H.
Qed.

Lemma colonFree_split (s : string) : colonFree s = true -> splitColonSpace s = [s].
Proof.
  induction s as [| c rest IH]; [done |]. intros H.
  cbn [colonFree] in H. apply andb_true_iff in H as [Hc Hrest].
  destruct rest as [| c' rest']; [done |].
  change (splitColonSpace (String c (String c' rest')))
    with (if Ascii.eqb c ":" && Ascii.eqb c' " "
          then EmptyString :: splitColonSpace rest'
          else match splitColonSpace (String c' rest') with
               | part :: parts => String c part :: parts
               | [] => [String c EmptyString]
               end).
  apply negb_true_iff in Hc. rewrite Hc. cbn [andb].
  by rewrite (IH Hrest).
Qed.

Lemma splitColonSpace_other (c : ascii) (s : string) :
  Ascii.eqb c ":" = false ->
  splitColonSpace (String c s)
    = match splitColonSpace s with
      | part :: parts => String c part :: parts
      | [] => [String c EmptyString]
      end.
Proof.
  intros Hc. destruct s as [| c' rest]; [done |].
  change (splitColonSpace (String c (String c' rest)))
    with (if Ascii.eqb c ":" && Ascii.eqb c' " "
          then EmptyString :: splitColonSpace rest
          else match splitColonSpace (String c' rest) with
               | part :: parts => String c part :: parts
               | [] => [String c EmptyString]
               end).
  by rewrite Hc.
Qed.

Lemma splitColonSpace_separator (s : string) :
  splitColonSpace (": " +:+ s) = EmptyString :: splitColonSpace s.
Proof. reflexivity. Qed.

Lemma fromHexChar_not_colon (c : ascii) (n : N) :
  fromHexChar c = Some n -> Ascii.eqb c ":" = false.
Proof.
  intros H. destruct (Ascii.eqb c ":") eqn:Hc; [| done].
  apply Ascii.eqb_eq in Hc. subst c. discriminate H.
Qed.

Lemma hex_DecodeString_colonFree (s : string) (bs : list byte) :
  hex_DecodeString s = inr bs -> colonFree s = true.
Proof.
  assert (H : forall s,
    (forall bs, hex_DecodeString s = inr bs -> colonFree s = true)
    /\ forall c bs, hex_DecodeString (String c s) = inr bs ->
         colonFree (String c s) = true).
  { clear s bs. induction s as [| q rest [IH1 IH2]].
    - split; [done |]. intros c bs. simpl. by destruct (fromHexChar c).
    - split; [apply IH2 |]. intros c bs H.
      change (hex_DecodeString (String c (String q rest)))
        with (match fromHexChar c with
              | None => inl (InvalidByteError c)
              | Some a =>
                  match fromHexChar q with
                  | None => inl (InvalidByteError q)
                  | Some b =>
                      match hex_DecodeString rest with
                      | inl err => inl err
                      | inr bs => inr (byte_of_ascii (ascii_of_N (a * 16 + b)) :: bs)
                      end
                  end
              end) in H.
      destruct (fromHexChar c) as [a |] eqn:Hc; [| done].
      destruct (fromHexChar q) as [b |] eqn:Hq; [| done].
      destruct (hex_DecodeString rest) as [err | bs'] eqn:Hrest; [done |].
      simpl. rewrite (fromHexChar_not_colon c a Hc), (fromHexChar_not_colon q b Hq).
      simpl. by apply (IH1 bs'). }
  apply H.
Qed.

(** X13. The authorization data delivered by the peer is accepted exactly
    when it is the text "Macaroon: " followed by hex digits that decode to
    bytes the macaroon decoder accepts; the macaroon stored is the decoded
    one.  Any other kind, a missing separator or a second separator is
    refused. *)
Theorem onAuthData_accepts (UnmarshalBinary : list byte -> error + Macaroon)
        (data : string) (mac : Macaroon) :
  onAuthData UnmarshalBinary data = inr mac
  <-> exists hexMac macBytes,
        data = "Macaroon: " +:+ hexMac
        /\ hex_DecodeString hexMac = inr macBytes
        /\ UnmarshalBinary macBytes = inr mac.
Proof.
  split.
  - unfold onAuthData. intros H.
    pose proof (joinColonSpace_split data) as Hjoin.
    destruct (splitColonSpace data) as [| kind [| hexMac [| ? ?]]]; try done.
    case_decide as Hkind; [done |].
    assert (kind = "Macaroon") as -> by (destruct (decide (kind = "Macaroon")); tauto).
    destruct (hex_DecodeString hexMac) as [err | macBytes] eqn:Hdec; [done |].
    destruct (UnmarshalBinary macBytes) as [err | mac'] eqn:Hmac; [done |].
    injection H as ->. exists hexMac, macBytes. by rewrite <- Hjoin.
  - intros (hexMac & macBytes & -> & Hdec & Hmac). unfold onAuthData.
    assert (Hsplit : splitColonSpace ("Macaroon: " +:+ hexMac) = ["Macaroon"; hexMac]).
    { change ("Macaroon: " +:+ hexMac)
        with (String "M" (String "a" (String "c" (String "a" (String "r"
                (String "o" (String "o" (String "n" (": " +:+ hexMac))))))))).
      rewrite !splitColonSpace_other by reflexivity.
      rewrite splitColonSpace_separator.
      by rewrite (colonFree_split hexMac (hex_DecodeString_colonFree _ _ Hdec)). }
    rewrite Hsplit. rewrite decide_False by (intros H; by apply H).
    by rewrite Hdec, Hmac.
Qed.

(** ** The HTTP front door *)

Lemma substring_whole (s : string) : String.substring 0 (String.length s) s = s.
Proof. induction s as [| c s IH]; [done |]. simpl. by rewrite IH. Qed.

Lemma append_cons (a : ascii) (p t : string) : String a p +:+ t = String a (p +:+ t).
Proof. reflexivity. Qed.

Lemma prefix_split (p h : string) :
  String.prefix p h = true ->
  h = p +:+ String.substring (String.length p) (String.length h - String.length p) h.
Proof.
  revert h. induction p as [| a p IH]; intros h Hp.
  - simpl. rewrite Nat.sub_0_r. by rewrite substring_whole.
  - destruct h as [| b h]; [done |]. simpl in Hp.
    destruct (ascii_dec a b) as [-> | Hne]; [| done].
    rewrite append_cons. simpl. f_equal. by apply IH.
Qed.

Lemma prefix_append (p t : string) : String.prefix p (p +:+ t) = true.
Proof.
  induction p as [| a p IH]; [by destruct t |]. rewrite append_cons. simpl.
  destruct (ascii_dec a a); [done | congruence].
Qed.

Lemma substring_append (p t : string) :
  String.substring (String.length p) (String.length (p +:+ t) - String.length p) (p +:+ t)
    = t.
Proof.
  induction p as [| a p IH].
  - change (EmptyString +:+ t) with t. simpl.
    rewrite Nat.sub_0_r. apply substring_whole.
  - rewrite append_cons. simpl. apply IH.
Qed.

Lemma bearer_token (h token : string) :
  Http.HasPrefix h "Bearer " = true /\ Http.TrimPrefix h "Bearer " = token
  <-> h = "Bearer " +:+ token.
Proof.
  unfold Http.TrimPrefix, Http.HasPrefix. split.
  - intros [Hp Ht]. rewrite Hp in Ht. rewrite <- Ht. by apply prefix_split.
  - intros ->. rewrite prefix_append. split; [done |]. apply substring_append.
Qed.

Lemma authMiddleware_admits_aux (LNCD_AUTH_TOKEN : string)
      (next : Http.Request -> Http.reply) (r : Http.Request) :
  Http.authMiddleware LNCD_AUTH_TOKEN next r
    = if decide (LNCD_AUTH_TOKEN = EmptyString
                 \/ Http.Authorization r = Some ("Bearer " +:+ LNCD_AUTH_TOKEN))
      then next r
      else Http.JSONError (Http.Literal "Unauthorized") 401.
Proof.
  unfold Http.authMiddleware.
  destruct (decide (LNCD_AUTH_TOKEN = EmptyString)) as [-> | Hset].
  { rewrite decide_False by tauto. by rewrite decide_True by tauto. }
  rewrite decide_True by done.
  pose proof (bearer_token (Http.Header_Get (Http.Authorization r)) LNCD_AUTH_TOKEN)
    as Hbearer.
  destruct (decide (LNCD_AUTH_TOKEN = EmptyString
                    \/ Http.Authorization r = Some ("Bearer " +:+ LNCD_AUTH_TOKEN)))
    as [Hauth | Hauth].
  - destruct Hauth as [? | Hauth]; [done |].
    rewrite Hauth in *. simpl in *.
    destruct (proj2 Hbearer eq_refl) as [Hp Ht].
    rewrite Hp. simpl. by rewrite decide_False by (rewrite Ht; tauto).
  - destruct (Http.HasPrefix _ _) eqn:Hp; [| done]. simpl.
    case_decide as Htoken; [done |]. exfalso. apply Hauth. right.
    assert (Heq : Http.Header_Get (Http.Authorization r) = "Bearer " +:+ LNCD_AUTH_TOKEN).
    { apply Hbearer. split; [done |].
      destruct (decide (Http.TrimPrefix (Http.Header_Get (Http.Authorization r)) "Bearer "
                        = LNCD_AUTH_TOKEN)); tauto. }
    destruct (Http.Authorization r) as [v |]; simpl in Heq; [by rewrite Heq | done].
Qed.

(** X14. [authMiddleware] lets a request through to the next handler exactly
    when no token is configured or the first [Authorization] header is
    "Bearer " followed by the configured token, byte for byte; every other
    request (no header, another scheme, another token, extra text) is
    answered with the JSON error "Unauthorized" and status 401 and never
    reaches the next handler. *)
Theorem authMiddleware_admits (LNCD_AUTH_TOKEN : string)
        (next : Http.Request -> Http.reply) (r : Http.Request) :
  Http.authMiddleware LNCD_AUTH_TOKEN next r
    = if decide (LNCD_AUTH_TOKEN = EmptyString
                 \/ Http.Authorization r = Some ("Bearer " +:+ LNCD_AUTH_TOKEN))
      then next r
      else Http.JSONError (Http.Literal "Unauthorized") 401.
Proof.
  apply authMiddleware_admits_aux.
Qed.

(** X15. The handler installed on [/rpc], [authMiddleware] around
    [rpcHandler], calls [pool.execute] only for an authorized POST request
    whose body decodes, and then with the descriptor, method and payload of
    the decoded request; every other request is answered with a JSON error
    (401, 405 or 400) without touching the pool. *)
Theorem rpc_route_reaches_pool (LNCD_AUTH_TOKEN : string)
        (Decode : string -> error + Http.RpcRequest) (tag : nat)
        (r : Http.Request) (info : ConnectionInfo) (req : Action) :
  Http.authMiddleware LNCD_AUTH_TOKEN (Http.rpcHandler Decode tag) r
    = Http.Execute info req
  <-> (LNCD_AUTH_TOKEN = EmptyString
       \/ Http.Authorization r = Some ("Bearer " +:+ LNCD_AUTH_TOKEN))
      /\ Http.Method r = "POST"
      /\ exists request,
           Decode (Http.Body r) = inr request
           /\ info = Http.rpcConnection request
           /\ req = mkAction tag (Http.rpcMethod request) (Http.rpcPayload request).
Proof.
  rewrite authMiddleware_admits_aux. unfold Http.rpcHandler.
  case_decide as Hauth; [| split; [done | tauto]].
  case_decide as Hmethod.
  { split; [done |]. intros (_ & Hm & _). tauto. }
  assert (Hpost : Http.Method r = "POST")
    by (destruct (decide (Http.Method r = "POST")); tauto).
  destruct (Decode (Http.Body r)) as [err | request].
  { split; [done |]. by intros (_ & _ & request & ? & _). }
  split.
  - intros [= <- <-]. repeat apply conj; try done. by exists request.
  - intros (_ & _ & request' & [= <-] & -> & ->). done.
Qed.

(** ** Configuration *)

(** X16. A boolean option read from the environment is true exactly when
    the variable is set to one of the six spellings 1, t, T, TRUE, true,
    True, or when the default is true and the variable is unset or set to a
    text that is no spelling of a truth value.  In particular the logging of
    secrets ([UNSAFE_LOGS], default false) is on only for a variable set to
    one of those six spellings. *)
Theorem getEnvAsBool_true (environ : gmap string string) (key : string)
        (defaultValue : bool) :
  (Config.getEnvAsBool environ key defaultValue = true
   <-> (exists v, environ !! key = Some v
                  /\ v ∈ ["1"; "t"; "T"; "TRUE"; "true"; "True"])
       \/ (defaultValue = true
           /\ forall v, environ !! key = Some v ->
                (v ∉ ["1"; "t"; "T"; "TRUE"; "true"; "True"])
                /\ (v ∉ ["0"; "f"; "F"; "FALSE"; "false"; "False"])))
  /\ (Config.UNSAFE_LOGS environ = true
      <-> exists v, environ !! "LNCD_DEV_UNSAFE_LOG" = Some v
                    /\ v ∈ ["1"; "t"; "T"; "TRUE"; "true"; "True"]).
Proof.
  assert (Hgen : forall key defaultValue,
    Config.getEnvAsBool environ key defaultValue = true
    <-> (exists v, environ !! key = Some v
                   /\ v ∈ ["1"; "t"; "T"; "TRUE"; "true"; "True"])
        \/ (defaultValue = true
            /\ forall v, environ !! key = Some v ->
                 (v ∉ ["1"; "t"; "T"; "TRUE"; "true"; "True"])
                 /\ (v ∉ ["0"; "f"; "F"; "FALSE"; "false"; "False"]))).
  { clear key defaultValue. intros key defaultValue.
    unfold Config.getEnvAsBool, Config.getEnv, Config.ParseBool.
    destruct (environ !! key) as [v |] eqn:Hv.
    - destruct (decide (v ∈ ["1"; "t"; "T"; "TRUE"; "true"; "True"])) as [Ht | Ht].
      + split; [| done]. intros _. left. by exists v.
      + destruct (decide (v ∈ ["0"; "f"; "F"; "FALSE"; "false"; "False"])) as [Hf | Hf].
        * split; [done |]. intros [(v' & [= <-] & Hin) | [_ H]]; [done |].
          destruct (H v eq_refl) as [_ Hnf]. done.
        * split.
          -- intros ->. right. split; [done |]. by intros v' [= <-].
          -- intros [(v' & [= <-] & Hin) | [-> _]]; done.
    - rewrite decide_False by (apply (bool_decide_unpack _); vm_compute; exact I).
      rewrite decide_False by (apply (bool_decide_unpack _); vm_compute; exact I).
      split.
      + intros ->. right. split; [done |]. done.
      + intros [(v' & ? & _) | [-> _]]; done. }
  split; [apply Hgen |].
  unfold Config.UNSAFE_LOGS. rewrite Hgen. split.
  - intros [H | [? _]]; done.
  - intros H. by left.
Qed.

(** ** What [execute] does to the callbacks *)

Lemma send_reports (W : World) (io : Oracle W) (info : ConnectionInfo)
      (req : Action) (pool : ConnectionPool) (p : option nat) :
  Forall (reportsOwnError W io info req) (send pool p req).1.2.
Proof.
  unfold send. destruct (p ≫= _) as [[q connection] |]; [| by repeat constructor].
  destruct (actionsClosed connection); [by repeat constructor |].
  case_decide; by repeat constructor.
Qed.

Lemma try_reports (W : World) (io : Oracle W) (now : Z) (pool : ConnectionPool)
      (info : ConnectionInfo) (req : Action) :
  Forall (reportsOwnError W io info req) (try W io now pool info req).1.2.
Proof.
  unfold try. destruct (connections pool !! _) as [p |]; [apply send_reports |].
  destruct (_ <=? _)%Z.
  { repeat constructor. }
  destruct (NewConnection W io info) as [err | connection] eqn:Hnew.
  - pose proof (send_reports W io info req pool None) as Hs.
    destruct (send pool None req) as [[pool' evs] r]. simpl in *.
    apply Forall_cons; split; [exact I |].
    apply Forall_cons; split; [split; [done | by right] | done].
  - match goal with |- context [send ?P ?Q req] =>
      pose proof (send_reports W io info req P Q) as Hs;
        destruct (send P Q req) as [[pool' evs] r]
    end.
    simpl in *. by repeat constructor.
Qed.

(** X18. On its own goroutine [execute] never invokes [onResponse] and never
    runs a registry invoker: the only callback it makes is [onError] of the
    action it was given, with "too many active connections" or with the
    error of session construction.  Answers come from the dispatch loop
    only. *)
Theorem execute_reports_only_own_errors (W : World) (n : nat) (io : Oracle W)
        (now : Z) (pool : ConnectionPool) (info : ConnectionInfo) (req : Action) :
  Forall (reportsOwnError W io info req) (execute W n io now pool info req).1.2.
Proof.
  revert now pool. induction n as [| n IH]; intros now pool; [constructor |].
  simpl.
  assert (Hattempt : Forall (reportsOwnError W io info req)
                            (attempt W io now pool info req).1.2).
  { unfold attempt. destruct (mutex pool); [constructor |].
    pose proof (try_reports W io now (withMutex pool true) info req) as Htry.
    destruct (try W io now (withMutex pool true) info req) as [[pool' evs] r].
    simpl in Htry.
    destruct r; simpl; repeat first [ apply Forall_cons; split; [done |]
                                    | apply Forall_app; split ];
      try done; by repeat constructor. }
  destruct (attempt W io now pool info req) as [[pool1 evs] r]. simpl in Hattempt.
  destruct r as [[|] | | |]; try done.
  specialize (IH (now + second)%Z pool1).
  destruct (execute W n io (now + second) pool1 info req) as [[pool2 evs2] r2].
  simpl in *. apply Forall_app. split; [done |]. by apply Forall_cons.
Qed.

(** ** Worked inputs *)

Example onAuthData_macaroon :
  onAuthData (fun bs => inr bs) "Macaroon: 0201" = inr [x02; x01].
Proof. reflexivity. Qed.

Example onAuthData_other_kind :
  onAuthData (fun bs => inr bs) "NotAMacaroon: deadbeef"
    = inl (ErrCollaborator "authdata does not contain a macaroon").
Proof. reflexivity. Qed.

Example onAuthData_no_space :
  onAuthData (fun bs => inr bs) "Macaroon:0201"
    = inl (ErrCollaborator "authdata does not contain a macaroon").
Proof. reflexivity. Qed.

Example onAuthData_two_separators :
  onAuthData (fun bs => inr bs) "Macaroon: 02: 01"
    = inl (ErrCollaborator "authdata does not contain a macaroon").
Proof. reflexivity. Qed.

Example onAuthData_bad_hex :
  onAuthData (fun bs => inr bs) "Macaroon: 02zz" = inl (InvalidByteError "z").
Proof. reflexivity. Qed.

Example authMiddleware_wrong_scheme :
  Http.authMiddleware "secret" (Http.rpcHandler (fun _ => inl ErrLength) 1)
                      (Http.mkRequest "POST" (Some "bearer secret") "{}")
    = Http.JSONError (Http.Literal "Unauthorized") 401.
Proof. reflexivity. Qed.

Example rpcHandler_get :
  Http.authMiddleware "secret" (Http.rpcHandler (fun _ => inl ErrLength) 1)
                      (Http.mkRequest "GET" (Some "Bearer secret") "{}")
    = Http.JSONError (Http.Literal "Method not allowed") 405.
Proof. reflexivity. Qed.

Example unsafe_logs_yes :
  Config.UNSAFE_LOGS {[ "LNCD_DEV_UNSAFE_LOG" := "yes" ]} = false.
Proof. reflexivity. Qed.

Example unsafe_logs_true :
  Config.UNSAFE_LOGS {[ "LNCD_DEV_UNSAFE_LOG" := "true" ]} = true.
Proof. reflexivity. Qed.

(** ** The key parser, as the code has it *)

Example generatorHex_encodes :
  Btcec.generatorHex = hex_EncodeToString Btcec.generatorUncompressed.
Proof. vm_compute. reflexivity. Qed.

Example parseKeys_short_local_key :
  parseKeys (Btcec.world 210) (Btcec.io 210) "0a" EmptyString = inr (10%Z, None).
Proof. vm_compute. reflexivity. Qed.

Example parseKeys_uncompressed_remote_key :
  parseKeys (Btcec.world 210) (Btcec.io 210) "0a" Btcec.generatorHex
    = inr (10%Z, Some (Btcec.generatorX, Btcec.generatorY)).
Proof. vm_compute. reflexivity. Qed.

(** C7, as stated, fails on both counts.  A local key of one byte is
    accepted: [btcec.PrivKeyFromBytes] refuses no length.  A remote key of 65
    bytes, the uncompressed generator, is accepted: [btcec.ParsePubKey]
    reads uncompressed and hybrid keys as well as compressed ones. *)
Lemma parseKeys_accepts_other_shapes :
  ~ localKeyIs32Bytes (Btcec.world 210)
  /\ ~ remoteKeyIsCompressed (Btcec.world 210).
Proof.
  split.
  - intros H.
    destruct (H (Btcec.io 210) "0a" 10%Z ltac:(discriminate)
                parseKeys_short_local_key) as (lb & Hdec & Hlen).
    vm_compute in Hdec. injection Hdec as <-. discriminate Hlen.
  - intros H.
    destruct (H (Btcec.io 210) "0a" Btcec.generatorHex 10%Z
                (Btcec.generatorX, Btcec.generatorY)
                ltac:(discriminate) ltac:(discriminate)
                parseKeys_uncompressed_remote_key) as (rb & Hdec & Hlen & _).
    vm_compute in Hdec. injection Hdec as <-. discriminate Hlen.
Qed.

(** C7, as the code has it.  [parseKeys] has three branches chosen by which
    inputs are empty.  Both empty: the key minted by [btcec.NewPrivateKey]
    and no remote point.  Remote empty, local not: the local key is
    hex-decoded and handed to [btcec.PrivKeyFromBytes], whatever the number
    of its bytes, and there is no remote point.  Otherwise: both are
    hex-decoded and the remote bytes are handed to [btcec.ParsePubKey], so
    that a remote key is accepted exactly when [btcec.ParsePubKey] accepts
    its bytes, in whatever serialization.  [parseKeys] fails whenever a hex
    decode or [btcec.ParsePubKey] fails, and returns that error as it is. *)
Theorem parseKeys_delegates (W : World) (io : Oracle W) :
  parseKeys W io EmptyString EmptyString
    = match NewPrivateKey io with
      | inl err => inl err
      | inr privKey => inr (privKey, None)
      end
  /\ (forall localHex, localHex <> EmptyString ->
        parseKeys W io localHex EmptyString
          = match hex_DecodeString localHex with
            | inl err => inl err
            | inr bs => inr (PrivKeyFromBytes W bs, None)
            end)
  /\ (forall localHex remoteHex,
        localHex <> EmptyString -> remoteHex <> EmptyString ->
        parseKeys W io localHex remoteHex
          = match hex_DecodeString localHex with
            | inl err => inl err
            | inr lb =>
                match hex_DecodeString remoteHex with
                | inl err => inl err
                | inr rb =>
                    match ParsePubKey W rb with
                    | inl err => inl err
                    | inr remotePoint => inr (PrivKeyFromBytes W lb, Some remotePoint)
                    end
                end
            end)
  /\ (forall lb, lb <> [] ->
        parseKeys W io (hex_EncodeToString lb) EmptyString
          = inr (PrivKeyFromBytes W lb, None))
  /\ (forall lb rb, lb <> [] -> rb <> [] ->
        parseKeys W io (hex_EncodeToString lb) (hex_EncodeToString rb)
          = match ParsePubKey W rb with
            | inl err => inl err
            | inr remotePoint => inr (PrivKeyFromBytes W lb, Some remotePoint)
            end)
  /\ (forall localHex remoteHex err,
        hex_DecodeString localHex = inl err ->
        parseKeys W io localHex remoteHex = inl err)
  /\ (forall localHex remoteHex lb err,
        hex_DecodeString localHex = inr lb ->
        hex_DecodeString remoteHex = inl err ->
        parseKeys W io localHex remoteHex = inl err)
  /\ (forall localHex remoteHex lb rb err,
        remoteHex <> EmptyString ->
        hex_DecodeString localHex = inr lb ->
        hex_DecodeString remoteHex = inr rb ->
        ParsePubKey W rb = inl err ->
        parseKeys W io localHex remoteHex = inl err).
Proof.
  destruct (parseKeys_three_cases W io) as (Hboth & Hlocal & Hremote & _).
  assert (Hdefault : forall localHex remoteHex, remoteHex <> EmptyString ->
    parseKeys W io localHex remoteHex
      = match hex_DecodeString localHex with
        | inl err => inl err
        | inr lb =>
            match hex_DecodeString remoteHex with
            | inl err => inl err
            | inr rb =>
                match ParsePubKey W rb with
                | inl err => inl err
                | inr remotePoint => inr (PrivKeyFromBytes W lb, Some remotePoint)
                end
            end
        end).
  { intros localHex remoteHex Hr. unfold parseKeys.
    rewrite decide_False by tauto. by rewrite decide_False. }
  repeat apply conj.
  - exact Hboth.
  - exact Hlocal.
  - exact Hremote.
  - intros lb Hlb.
    rewrite (Hlocal _ (hex_EncodeToString_nonempty lb Hlb)).
    by rewrite hex_DecodeString_EncodeToString.
  - intros lb rb Hlb Hrb.
    rewrite (Hdefault _ _ (hex_EncodeToString_nonempty rb Hrb)).
    by rewrite !hex_DecodeString_EncodeToString.
  - intros localHex remoteHex err Hdec.
    assert (Hl : localHex <> EmptyString) by (intros ->; discriminate Hdec).
    destruct (decide (remoteHex = EmptyString)) as [-> | Hr].
    + rewrite (Hlocal _ Hl). by rewrite Hdec.
    + rewrite (Hdefault _ _ Hr). by rewrite Hdec.
  - intros localHex remoteHex lb err Hl Hdec.
    assert (Hr : remoteHex <> EmptyString) by (intros ->; discriminate Hdec).
    rewrite (Hdefault _ _ Hr). by rewrite Hl, Hdec.
  - intros localHex remoteHex lb rb err Hr Hl Hdec Hpub.
    rewrite (Hdefault _ _ Hr). by rewrite Hl, Hdec, Hpub.
Qed.

(** ** The answer of [checkPerms], read back *)

Lemma append_assoc' (a b c : string) : (a +:+ b) +:+ c = a +:+ (b +:+ c).
Proof.
  induction a as [| x a IH]; [done |]. rewrite !append_cons. by rewrite IH.
Qed.

Lemma decodeItems_true_more (s : string) :
  decodeItems ("true" +:+ "," +:+ s) = cons true <$> decodeItems s.
Proof. reflexivity. Qed.

Lemma decodeItems_false_more (s : string) :
  decodeItems ("false" +:+ "," +:+ s) = cons false <$> decodeItems s.
Proof. reflexivity. Qed.

Lemma join_commas_cons (x y : string) (rest : list string) :
  join_commas (x :: y :: rest) = x +:+ "," +:+ join_commas (y :: rest).
Proof. reflexivity. Qed.

Lemma decodeItems_join (v : list bool) :
  v <> [] -> decodeItems (join_commas (map bool_json v) +:+ "]") = Some v.
Proof.
  induction v as [| b v IH]; [done |]. intros _.
  destruct v as [| b' v].
  - by destruct b.
  - change (map bool_json (b :: b' :: v))
      with (bool_json b :: bool_json b' :: map bool_json v).
    rewrite join_commas_cons. rewrite !append_assoc'.
    change (bool_json b' :: map bool_json v) with (map bool_json (b' :: v)).
    destruct b.
    + change (bool_json true) with "true".
      rewrite decodeItems_true_more. by rewrite IH.
    + change (bool_json false) with "false".
      rewrite decodeItems_false_more. by rewrite IH.
Qed.

(** The text [json.Marshal] writes for a list of booleans reads back as
    that list. *)
Lemma decodeBoolArray_jsonArray (v : list bool) :
  decodeBoolArray (jsonArray v) = Some v.
Proof.
  destruct v as [| b v]; [reflexivity |].
  pose proof (decodeItems_join (b :: v) ltac:(done)) as Hitems.
  unfold jsonArray.
  destruct v as [| b' v].
  - by destruct b.
  - change (map bool_json (b :: b' :: v))
      with (bool_json b :: bool_json b' :: map bool_json v) in *.
    rewrite join_commas_cons in *. rewrite !append_assoc' in Hitems.
    destruct b; exact Hitems.
Qed.

Lemma cutAtColon_None (s : string) : cutAtColon s = None <-> colonFree s = true.
Proof.
  induction s as [| c s IH]; [done |]. simpl.
  destruct (Ascii.eqb c ":"); simpl; [done |].
  rewrite <- IH. by destruct (cutAtColon s) as [[before after] |].
Qed.

Lemma cutAtColon_Some (s before after : string) :
  cutAtColon s = Some (before, after)
  <-> s = before +:+ ":" +:+ after /\ colonFree before = true.
Proof.
  revert before. induction s as [| c s IH]; intros before.
  - split; [done |]. intros [H _]. by destruct before.
  - simpl. destruct (Ascii.eqb c ":") eqn:Hc.
    + apply Ascii.eqb_eq in Hc. subst c. split.
      * by intros [= <- <-].
      * intros [H Hfree]. destruct before as [| x before].
        -- by injection H as ->.
        -- rewrite append_cons in H. injection H as <- _. done.
    + split.
      * destruct (cutAtColon s) as [[b a] |] eqn:Hcut; [| done].
        intros [= <- <-]. destruct (proj1 (IH b) eq_refl) as [-> Hfree].
        rewrite append_cons. simpl. by rewrite Hc.
      * intros [H Hfree]. destruct before as [| x before].
        -- injection H as -> _. by rewrite Ascii.eqb_refl in Hc.
        -- rewrite append_cons in H. injection H as <- ->.
           simpl in Hfree. apply andb_true_iff in Hfree as [_ Hfree].
           by rewrite (proj2 (IH before) (conj eq_refl Hfree)).
Qed.

(** The parser of permission strings accepts exactly an entity and an action
    with one colon between them. *)
Lemma parsePermission_Some (requested entity action : string) :
  parsePermission requested = Some (entity, action)
  <-> requested = entity +:+ ":" +:+ action
      /\ colonFree entity = true /\ colonFree action = true.
Proof.
  unfold parsePermission. split.
  - destruct (cutAtColon requested) as [[e a] |] eqn:Hcut; [| done].
    destruct (cutAtColon a) as [[? ?] |] eqn:Ha; [done |].
    intros [= <- <-]. apply cutAtColon_Some in Hcut as [-> He].
    by apply cutAtColon_None in Ha.
  - intros (-> & He & Ha).
    rewrite (proj2 (cutAtColon_Some _ entity action) (conj eq_refl He)).
    by rewrite (proj2 (cutAtColon_None action) Ha).
Qed.

Lemma permitted_allowedBy (pm : PermissionManager) (requested : string) :
  permitted pm requested <-> allowedBy pm requested.
Proof.
  unfold permitted, allowedBy. split.
  - intros (entity & action & Hparse & Hcaps).
    apply parsePermission_Some in Hparse as (-> & He & Ha).
    by exists entity, action.
  - intros (entity & action & -> & He & Ha & Hcaps).
    exists entity, action. split; [| done].
    by apply parsePermission_Some.
Qed.

(** C8. A [checkPerms] action whose payload parses as [n] permission
    strings is answered through [onResponse], once, with a text that reads
    as a JSON array of exactly [n] booleans; the [i]-th of them is true
    exactly when the [i]-th requested permission is an entity and an action
    separated by one colon and the session's capability set holds the exact
    pair, or the entity with "*", or "*" with the action, or "*" with
    "*". *)
Theorem checkPerms_response (W : World) (conn : Connection) (req : Action)
        (permList : list string) :
  method req = "checkPerms" ->
  json_Unmarshal_strings W (payload req) = inr permList ->
  exists (result : string) (valid : list bool),
    dispatch (withSpecCheck W) conn req = [EvOnResponse req (connInfo conn) result]
    /\ decodeBoolArray result = Some valid
    /\ length valid = length permList
    /\ forall i perm, permList !! i = Some perm ->
         exists b, valid !! i = Some b /\ (b = true <-> allowedBy (perms conn) perm).
Proof.
  intros Hm Hparse.
  destruct (checkPerms_verdicts W conn req permList Hm Hparse)
    as (valid & Hdispatch & Hlen & Hall).
  exists (jsonArray valid), valid.
  repeat apply conj; [done | apply decodeBoolArray_jsonArray | done |].
  intros i perm Hi. destruct (Hall i perm Hi) as (b & Hb & Hiff).
  exists b. split; [done |]. by rewrite <- permitted_allowedBy.
Qed.

(** The third scenario of section 8: with the capabilities [info:read] and
    [offchain:*], the three requested permissions are answered with the text
    [[true,true,false]]. *)
Lemma checkPerms_response_witness :
  dispatch (withSpecCheck (Demo.world 210)) Demo.session
           (mkAction 3 "checkPerms" Demo.payloadThree)
    = [EvOnResponse (mkAction 3 "checkPerms" Demo.payloadThree) Demo.alice
                    "[true,true,false]"]
  /\ decodeBoolArray "[true,true,false]" = Some [true; true; false]
  /\ (allowedBy (perms Demo.session) "info:read"
      /\ allowedBy (perms Demo.session) "offchain:send"
      /\ ~ allowedBy (perms Demo.session) "onchain:read").
Proof.
  destruct (checkPerms_response (Demo.world 210) Demo.session
              (mkAction 3 "checkPerms" Demo.payloadThree)
              ["info:read"; "offchain:send"; "onchain:read"] eq_refl eq_refl)
    as (result & valid & Hdispatch & Hdecode & Hlen & Hall).
  vm_compute in Hdispatch. injection Hdispatch as <-.
  vm_compute in Hdecode. injection Hdecode as <-.
  split; [reflexivity |]. split; [reflexivity |].
  destruct (Hall 0 "info:read" eq_refl) as (b0 & [= <-] & H0).
  destruct (Hall 1 "offchain:send" eq_refl) as (b1 & [= <-] & H1).
  destruct (Hall 2 "onchain:read" eq_refl) as (b2 & [= <-] & H2).
  repeat apply conj.
  - by apply H0.
  - by apply H1.
  - intros H. apply H2 in H. discriminate H.
Defined.

Example parseKeys_hybrid_remote_key :
  parseKeys (Btcec.world 210) (Btcec.io 210) "0a"
            (hex_EncodeToString
               (x06 :: Btcec.toBytes 32 Btcec.generatorX
                    ++ Btcec.toBytes 32 Btcec.generatorY))
    = inr (10%Z, Some (Btcec.generatorX, Btcec.generatorY)).
Proof. vm_compute. reflexivity. Qed.

Example parseKeys_compressed_remote_key :
  parseKeys (Btcec.world 210) (Btcec.io 210) "0a"
            (hex_EncodeToString
               (Btcec.SerializeCompressed (Btcec.generatorX, Btcec.generatorY)))
    = inr (10%Z, Some (Btcec.generatorX, Btcec.generatorY)).
Proof. vm_compute. reflexivity. Qed.

Example parseKeys_point_off_curve :
  isError (parseKeys (Btcec.world 210) (Btcec.io 210) "0a"
             (hex_EncodeToString
                (x04 :: Btcec.toBytes 32 Btcec.generatorX
                     ++ Btcec.toBytes 32 (Btcec.generatorY + 1)))).
Proof. vm_compute. exact I. Qed.
